(** * Kamailio TLS module, common functions ([src/modules/tls/tls_util.c])

    A shallow embedding of [tls_util.c] and the properties of

    - the reference-counted chain of TLS configuration generations and its
      collector [collect_garbage];
    - the key-log sinks ([ksr_tls_keylog_file_init], [ksr_tls_keylog_file_write],
      [ksr_tls_keylog_peer_init], [ksr_tls_keylog_peer_send]) and the line
      filter [ksr_tls_keylog_vfilter_match];
    - the shared-memory string copy [shm_asciiz_dup].

    Shared memory is a finite map from addresses to objects; a C pointer is an
    [option] of an address ([None] is [NULL]).  Calls into the rest of the
    server (allocator, locks, stdio, resolver, UDP layer) are answered by an
    explicit environment argument and recorded in an event list. *)

From Stdlib Require Import ZArith List String Ascii Lia Bool.
From stdpp Require Import base option list gmap.

Local Open Scope Z_scope.

(** Result of running a piece of C code that may dereference a pointer,
    wait on a lock, or loop. *)
Inductive outcome (A : Type) : Type :=
| Done (a : A)      (* returned normally *)
| Fault             (* dereferenced NULL or a freed object *)
| Blocked           (* [lock_get] on a lock that is held *)
| OutOfFuel.        (* loop bound of the model exhausted *)
Arguments Done {A} a.
Arguments Fault {A}.
Arguments Blocked {A}.
Arguments OutOfFuel {A}.

(** ** The chain of configuration generations *)

Module Registry.

Abbreviation addr := positive.

(** [tls_domains_cfg_t].  The four domain pointers of the C structure
    ([srv_default], [cli_default], [srv_list], [cli_list]) are never touched
    by this file; they are kept together as [domains]. *)
Record tls_domains_cfg_t : Type := mk_cfg {
  domains : nat;
  next : option addr;
  ref_count : Z
}.

Definition set_next (n : tls_domains_cfg_t) (p : option addr) : tls_domains_cfg_t :=
  mk_cfg (domains n) p (ref_count n).

Definition set_ref_count (n : tls_domains_cfg_t) (c : Z) : tls_domains_cfg_t :=
  mk_cfg (domains n) (next n) c.

(** Shared memory holding the generations, the cell that [tls_domains_cfg]
    points to (the head of the chain) and [tls_domains_cfg_lock]. *)
Record registry : Type := mk_registry {
  heap : gmap addr tls_domains_cfg_t;
  tls_domains_cfg : option addr;
  tls_domains_cfg_lock : bool
}.

(** [tls_free_cfg(cur)]: the generation's memory goes back to the allocator. *)
Definition tls_free_cfg (c : addr) (h : gmap addr tls_domains_cfg_t)
  : gmap addr tls_domains_cfg_t := delete c h.

(** [atomic_get(&cur->ref_count)] on a live node. *)
Definition atomic_get (n : tls_domains_cfg_t) : Z := ref_count n.

(** The body of the [while(cur)] loop of [collect_garbage], entered with
    [cur] pointing to [c]: the new memory, the new [prev], the new [cur] and
    the argument of [tls_free_cfg] if it was called. *)
Definition gc_iter (h : gmap addr tls_domains_cfg_t) (prev c : addr)
  : outcome (gmap addr tls_domains_cfg_t * addr * option addr * list addr) :=
  match h !! c with
  | None => Fault
  | Some cn =>
    let nxt := next cn in                            (* next = cur->next *)
    if atomic_get cn =? 0 then
      match h !! prev with
      | None => Fault
      | Some pn =>
        let h1 := <[prev := set_next pn (next cn)]> h in  (* prev->next = cur->next *)
        let h2 := tls_free_cfg c h1 in
        Done (h2, prev, nxt, [c])
      end
    else
      Done (h, c, nxt, [])                           (* prev = cur *)
  end.

(** The loop.  [freed] lists the arguments of the [tls_free_cfg] calls made
    so far, oldest first. *)
Fixpoint gc_loop (fuel : nat) (h : gmap addr tls_domains_cfg_t)
    (prev : addr) (cur : option addr) (freed : list addr)
  : outcome (gmap addr tls_domains_cfg_t * list addr) :=
  match cur with
  | None => Done (h, freed)
  | Some c =>
    match fuel with
    | O => OutOfFuel
    | S fuel' =>
      match gc_iter h prev c with
      | Done (h', prev', cur', fr) => gc_loop fuel' h' prev' cur' (freed ++ fr)
      | Fault => Fault
      | Blocked => Blocked
      | OutOfFuel => OutOfFuel
      end
    end
  end.

(** [collect_garbage()].  Returns the new shared memory and the list of
    generations handed to [tls_free_cfg]. *)
Definition collect_garbage (fuel : nat) (s : registry)
  : outcome (registry * list addr) :=
  if tls_domains_cfg_lock s then Blocked          (* lock_get *)
  else
    match tls_domains_cfg s with
    | None => Fault
    | Some hd =>                                   (* prev = head of the chain *)
      match heap s !! hd with
      | None => Fault
      | Some hn =>                                 (* cur = head->next *)
        match gc_loop fuel (heap s) hd (next hn) [] with
        | Done (h', freed) =>
            Done (mk_registry h' (tls_domains_cfg s) false, freed)  (* lock_release *)
        | Fault => Fault
        | Blocked => Blocked
        | OutOfFuel => OutOfFuel
        end
      end
    end.

(** *** The chain as a sequence *)

(** [is_chain h p l]: following [next] from [p] in [h] visits exactly the
    addresses [l] and then reaches [NULL]. *)
Fixpoint is_chain (h : gmap addr tls_domains_cfg_t) (p : option addr)
    (l : list addr) : Prop :=
  match l with
  | [] => p = None
  | a :: l' => p = Some a ∧ ∃ n, h !! a = Some n ∧ is_chain h (next n) l'
  end.

(** A generation is garbage when its count reads zero. *)
Definition unreferenced (h : gmap addr tls_domains_cfg_t) (a : addr) : Prop :=
  ∃ n, h !! a = Some n ∧ ref_count n = 0.

Definition referenced (h : gmap addr tls_domains_cfg_t) (a : addr) : Prop :=
  ¬ unreferenced h a.

#[global] Instance unreferenced_dec h a : Decision (unreferenced h a).
Proof.
  unfold unreferenced. destruct (h !! a) as [n|] eqn:E.
  - destruct (decide (ref_count n = 0)) as [Hz|Hz].
    + left. eauto.
    + right. intros (n' & Hn' & Hz'). congruence.
  - right. intros (n' & Hn' & _). congruence.
Defined.

#[global] Instance referenced_dec h a : Decision (referenced h a).
Proof. unfold referenced. apply _. Defined.

(** What survives in a node across a sweep: everything but its link. *)
Definition payload (n : tls_domains_cfg_t) : nat * Z := (domains n, ref_count n).

(** Overwrite the count stored in the node at [a] (if there is one). *)
Definition set_count_at (a : addr) (c : Z) (h : gmap addr tls_domains_cfg_t)
  : gmap addr tls_domains_cfg_t := alter (λ n, set_ref_count n c) a h.

Definition outcome_map {A B : Type} (f : A → B) (o : outcome A) : outcome B :=
  match o with
  | Done a => Done (f a)
  | Fault => Fault
  | Blocked => Blocked
  | OutOfFuel => OutOfFuel
  end.

Definition with_count (a : addr) (c : Z) (s : registry) : registry :=
  mk_registry (set_count_at a c (heap s)) (tls_domains_cfg s) (tls_domains_cfg_lock s).

(** *** The other users of the chain

    The reload code and the connection code live in other files of the
    module (tls_domain.c, tls_server.c); they are the environment in which
    [collect_garbage] runs. *)

(** Modelled from the spec: [publish(new_generation)], which "inserts
    [new_generation] as the new head; the prior head becomes the head's
    successor in the retirement chain", takes the registry lock for the head
    swap, does not reclaim anything, and on allocation failure "leaves the
    previous head unchanged".  [a] is the allocator's answer; an answer that
    names a live block is no answer of an allocator and is treated like a
    failure.  A new generation has no connection bound to it yet. *)
Definition publish (a : option addr) (d : nat) (s : registry) : outcome registry :=
  if tls_domains_cfg_lock s then Blocked
  else
    match a with
    | None => Done s
    | Some g =>
      match heap s !! g with
      | Some _ => Done s
      | None =>
        Done (mk_registry (<[g := mk_cfg d (tls_domains_cfg s) 0]> (heap s))
                          (Some g) false)
      end
    end.

(** Modelled from the spec: [acquire_current()], which "atomically reads the
    head pointer and increments its reference count; returns a handle
    identifying that generation". *)
Definition acquire_current (s : registry) : outcome (registry * addr) :=
  match tls_domains_cfg s with
  | None => Fault
  | Some hd =>
    match heap s !! hd with
    | None => Fault
    | Some n =>
      Done (mk_registry (<[hd := set_ref_count n (ref_count n + 1)]> (heap s))
                        (tls_domains_cfg s) (tls_domains_cfg_lock s), hd)
    end
  end.

(** Modelled from the spec: [release(reference)], which "atomically
    decrements the generation's reference count" and "never frees memory
    itself". *)
Definition release (a : addr) (s : registry) : outcome registry :=
  match heap s !! a with
  | None => Fault
  | Some n =>
    Done (mk_registry (<[a := set_ref_count n (ref_count n - 1)]> (heap s))
                      (tls_domains_cfg s) (tls_domains_cfg_lock s))
  end.

(** The registry together with the references that connections hold. *)
Record system : Type := mk_system {
  reg : registry;
  refs : list addr
}.

Inductive op : Type :=
| Acquire                               (* a connection binds to the current generation *)
| Release (i : nat)                     (* the connection holding reference number [i] lets go *)
| Publish (a : option addr) (d : nat)   (* a reload, with the allocator's answer *)
| Sweep.                                (* [collect_garbage()] *)

(** One operation, run to completion.  The loop bound given to the sweep is
    the number of live generations, which no chain can exceed. *)
Definition step (o : op) (st : system) : outcome system :=
  match o with
  | Acquire =>
    match acquire_current (reg st) with
    | Done (r, a) => Done (mk_system r (a :: refs st))
    | Fault => Fault | Blocked => Blocked | OutOfFuel => OutOfFuel
    end
  | Release i =>
    match refs st !! i with
    | None => Done st
    | Some a =>
      match release a (reg st) with
      | Done r => Done (mk_system r (delete i (refs st)))
      | Fault => Fault | Blocked => Blocked | OutOfFuel => OutOfFuel
      end
    end
  | Publish a d =>
    match publish a d (reg st) with
    | Done r => Done (mk_system r (refs st))
    | Fault => Fault | Blocked => Blocked | OutOfFuel => OutOfFuel
    end
  | Sweep =>
    match collect_garbage (size (heap (reg st))) (reg st) with
    | Done (r, _) => Done (mk_system r (refs st))
    | Fault => Fault | Blocked => Blocked | OutOfFuel => OutOfFuel
    end
  end.

Fixpoint run (ops : list op) (st : system) : outcome system :=
  match ops with
  | [] => Done st
  | o :: ops' =>
    match step o st with
    | Done st' => run ops' st'
    | Fault => Fault | Blocked => Blocked | OutOfFuel => OutOfFuel
    end
  end.

(** Number of references to [a] that connections hold. *)
Definition held (a : addr) (rs : list addr) : Z :=
  Z.of_nat (length (filter (λ b, b = a) rs)).

(** The state of a running server: the lock is free between operations,
    the head starts a chain that ends in [NULL], every count is the number
    of references held, and references point into the chain. *)
Definition consistent (st : system) : Prop :=
  tls_domains_cfg_lock (reg st) = false ∧
  ∃ hd l,
    tls_domains_cfg (reg st) = Some hd ∧
    is_chain (heap (reg st)) (Some hd) (hd :: l) ∧
    (∀ a n, a ∈ hd :: l → heap (reg st) !! a = Some n → ref_count n = held a (refs st)) ∧
    (∀ a, a ∈ refs st → a ∈ hd :: l).

(** *** Connections at work while a sweep is under way

    Binding and unbinding a connection take no lock, so they can fall between
    two iterations of the loop of [collect_garbage]; a reload waits for the
    lock.  Here the sweep is cut into its entry (lock taken, [prev] and [cur]
    set), its iterations and its exit (lock released). *)

Record server : Type := mk_server {
  sv_reg : registry;
  sv_refs : list addr;
  sv_sweep : option (addr * option addr)   (* [prev] and [cur] of a sweep under way *)
}.

Inductive action : Type :=
| Bind                                  (* as [Acquire] *)
| Unbind (i : nat)                      (* as [Release] *)
| Reload (a : option addr) (d : nat)    (* as [Publish] *)
| Enter                                 (* [collect_garbage] up to the loop *)
| Iterate                               (* one turn of the loop *)
| Leave.                                (* [collect_garbage] after the loop *)

(** One action; the second component is what it handed to [tls_free_cfg].
    [Blocked] stands for an action that cannot be taken now: a lock that is
    held, a turn of the loop when no sweep is at that point. *)
Definition act (a : action) (sv : server) : outcome (server * list addr) :=
  match a with
  | Bind =>
    match acquire_current (sv_reg sv) with
    | Done (r, g) => Done (mk_server r (g :: sv_refs sv) (sv_sweep sv), [])
    | Fault => Fault | Blocked => Blocked | OutOfFuel => OutOfFuel
    end
  | Unbind i =>
    match sv_refs sv !! i with
    | None => Done (sv, [])
    | Some g =>
      match release g (sv_reg sv) with
      | Done r => Done (mk_server r (delete i (sv_refs sv)) (sv_sweep sv), [])
      | Fault => Fault | Blocked => Blocked | OutOfFuel => OutOfFuel
      end
    end
  | Reload g d =>
    match publish g d (sv_reg sv) with
    | Done r => Done (mk_server r (sv_refs sv) (sv_sweep sv), [])
    | Fault => Fault | Blocked => Blocked | OutOfFuel => OutOfFuel
    end
  | Enter =>
    let s := sv_reg sv in
    if tls_domains_cfg_lock s then Blocked
    else
      match tls_domains_cfg s with
      | None => Fault
      | Some hd =>
        match heap s !! hd with
        | None => Fault
        | Some hn =>
          Done (mk_server (mk_registry (heap s) (tls_domains_cfg s) true)
                          (sv_refs sv) (Some (hd, next hn)), [])
        end
      end
  | Iterate =>
    match sv_sweep sv with
    | Some (prev, Some c) =>
      match gc_iter (heap (sv_reg sv)) prev c with
      | Done (h', prev', cur', fr) =>
        Done (mk_server (mk_registry h' (tls_domains_cfg (sv_reg sv)) true)
                        (sv_refs sv) (Some (prev', cur')), fr)
      | Fault => Fault | Blocked => Blocked | OutOfFuel => OutOfFuel
      end
    | _ => Blocked
    end
  | Leave =>
    match sv_sweep sv with
    | Some (_, None) =>
      Done (mk_server (mk_registry (heap (sv_reg sv)) (tls_domains_cfg (sv_reg sv)) false)
                      (sv_refs sv) None, [])
    | _ => Blocked
    end
  end.

(** A schedule of actions; one that cannot be taken is passed over. *)
Fixpoint play (sched : list action) (sv : server) : outcome server :=
  match sched with
  | [] => Done sv
  | a :: rest =>
    match act a sv with
    | Done (sv', _) => play rest sv'
    | Blocked => play rest sv
    | Fault => Fault
    | OutOfFuel => OutOfFuel
    end
  end.

(** The state of a running server, possibly in the middle of a sweep: as
    [consistent], and the lock is held exactly during a sweep, whose [prev]
    is on the chain and links to its [cur]. *)
Definition steady (sv : server) : Prop :=
  ∃ hd L,
    tls_domains_cfg (sv_reg sv) = Some hd ∧
    is_chain (heap (sv_reg sv)) (Some hd) L ∧
    (∀ a n, a ∈ L → heap (sv_reg sv) !! a = Some n → ref_count n = held a (sv_refs sv)) ∧
    (∀ a, a ∈ sv_refs sv → a ∈ L) ∧
    match sv_sweep sv with
    | None => tls_domains_cfg_lock (sv_reg sv) = false
    | Some (prev, cur) =>
      tls_domains_cfg_lock (sv_reg sv) = true ∧ prev ∈ L ∧
      ∃ pn, heap (sv_reg sv) !! prev = Some pn ∧ next pn = cur
    end.

(** A server that has published a second generation while one connection
    was bound to the first. *)
Definition two_generations : system :=
  mk_system
    (mk_registry (<[2%positive := mk_cfg 20 (Some 1%positive) 0]>
                    (<[1%positive := mk_cfg 10 None 1]> ∅))
                 (Some 2%positive) false)
    [1%positive].

(** Modelled from the spec: "the head (current generation) is never
    inspected or freed by sweep", read as a statement on the node: on every
    chain, after the sweep the head pointer is the same and the head node is
    as it was, field by field. *)
Definition head_untouched_as_specified : Prop :=
  ∀ (s : registry) (hd : addr) (l : list addr) (fuel : nat)
    (s' : registry) (freed : list addr),
    tls_domains_cfg_lock s = false →
    tls_domains_cfg s = Some hd →
    is_chain (heap s) (Some hd) (hd :: l) →
    collect_garbage fuel s = Done (s', freed) →
    tls_domains_cfg s' = Some hd ∧ heap s' !! hd = heap s !! hd.

(** A registry whose head is in use and whose retired generation is not. *)
Definition retired_unreferenced : registry :=
  mk_registry (<[2%positive := mk_cfg 20 (Some 1%positive) 1]>
                 (<[1%positive := mk_cfg 10 None 0]> ∅))
              (Some 2%positive) false.

End Registry.

(** ** C strings *)

Module CString.

Definition NUL : ascii := Ascii.zero.

(** A [char *] argument is given by the bytes it points to; the C string is
    what comes before the first NUL (or all of them: the terminator follows). *)
Fixpoint c_str (s : list ascii) : list ascii :=
  match s with
  | [] => []
  | c :: r => if Ascii.eqb c NUL then [] else c :: c_str r
  end.

Definition strlen (s : list ascii) : Z := Z.of_nat (length (c_str s)).

Definition byte (c : ascii) : Z := Z.of_N (N_of_ascii c).

(** [tolower] in the C locale, on [unsigned char] values. *)
Definition tolower (c : Z) : Z :=
  if (65 <=? c) && (c <=? 90) then c + 32 else c.

(** The byte a [char *] points at; past the end of the list is the terminator. *)
Definition deref (s : list ascii) : Z :=
  match s with
  | [] => 0
  | c :: _ => byte c
  end.

(** [strcasecmp(p1, p2)]: compare lowered bytes until they differ or the
    first string ends. *)
Fixpoint strcasecmp (p1 p2 : list ascii) : Z :=
  let result := tolower (deref p1) - tolower (deref p2) in
  if result =? 0 then
    match p1, p2 with
    | _ :: r1, _ :: r2 => if deref p1 =? 0 then 0 else strcasecmp r1 r2
    | _, _ => 0
    end
  else result.

(** The bytes of a string literal. *)
Definition lit (s : string) : list ascii := list_ascii_of_string s.

(** A C string with its letters lowered: two strings are equal "ignoring
    case" when these agree. *)
Definition lowered (s : list ascii) : list Z := map (λ c, tolower (byte c)) (c_str s).

End CString.

(** ** The key-log sinks *)

Module Keylog.
Import CString.

(** Kamailio's counted string [str]: [char *s; int len]. *)
Record str : Type := mk_str {
  str_s : option (list ascii);
  str_len : Z
}.

(** The object behind a [gen_lock_t *]: fresh from [lock_alloc] it is not
    ready; [lock_init] makes it a free lock. *)
Record gen_lock_t : Type := mk_lock {
  lock_ready : bool;
  lock_held : bool
}.

Record sockaddr_union : Type := mk_su {
  su_addr : Z;
  su_port : Z
}.

(** The fields of [dest_info_t] that this file reads or writes;
    [send_sock] points to a [struct socket_info] of the core. *)
Record dest_info_t : Type := mk_dest {
  send_sock : option positive;
  to : sockaddr_union;
  proto : Z
}.

(** The variables of the module: the three [extern] parameters and the two
    [static] ones. *)
Record globals : Type := mk_globals {
  ksr_tls_keylog_mode : option Z;
  ksr_tls_keylog_file : str;
  ksr_tls_keylog_peer : str;
  ksr_tls_keylog_file_lock : option gen_lock_t;
  ksr_tls_keylog_peer_dst : dest_info_t
}.

Definition set_file_lock (g : globals) (l : option gen_lock_t) : globals :=
  mk_globals (ksr_tls_keylog_mode g) (ksr_tls_keylog_file g) (ksr_tls_keylog_peer g)
             l (ksr_tls_keylog_peer_dst g).

Definition set_peer_dst (g : globals) (d : dest_info_t) : globals :=
  mk_globals (ksr_tls_keylog_mode g) (ksr_tls_keylog_file g) (ksr_tls_keylog_peer g)
             (ksr_tls_keylog_file_lock g) d.

(** Calls that leave the module. *)
Inductive event : Type :=
| ev_lock_alloc (ok : bool)
| ev_lock_init (ok : bool)
| ev_lock_get
| ev_lock_release
| ev_fopen (path : list ascii) (mode : list ascii) (ok : bool)
| ev_fprintf (text : list ascii)
| ev_fclose
| ev_log                                                     (* LM_ERR, LM_CRIT *)
| ev_init_dest_info
| ev_parse_phostport (spec : list ascii) (ok : bool)
| ev_sip_hostport2su (host : list ascii) (port : Z) (ok : bool)
| ev_get_send_socket (dst : sockaddr_union) (proto : Z) (ok : bool)
| ev_udp_send (dst : dest_info_t) (payload : list ascii) (rc : Z).

(** What a C condition tests. *)
Definition truthy (v : Z) : bool := negb (v =? 0).

(** *** The line filter *)

(** The array [ksr_tls_keylog_vfilters]; its [NULL] sentinel is the end of
    the list. *)
Definition ksr_tls_keylog_vfilters : list (list ascii) :=
  [ lit "CLIENT_RANDOM ";
    lit "CLIENT_HANDSHAKE_TRAFFIC_SECRET ";
    lit "SERVER_HANDSHAKE_TRAFFIC_SECRET ";
    lit "EXPORTER_SECRET ";
    lit "CLIENT_TRAFFIC_SECRET_0 ";
    lit "SERVER_TRAFFIC_SECRET_0 " ].

(** The [for] loop of [ksr_tls_keylog_vfilter_match], from entry [i] on. *)
Fixpoint vfilter_loop (filters : list (list ascii)) (line : list ascii) : Z :=
  match filters with
  | [] => 0
  | f :: rest => if strcasecmp f line =? 0 then 1 else vfilter_loop rest line
  end.

Definition ksr_tls_keylog_vfilter_match (line : list ascii) : Z :=
  vfilter_loop ksr_tls_keylog_vfilters line.

(** The allow-list as the specification words it: "exact case-insensitive
    match against a canonical list: client-random,
    client-handshake-traffic-secret, server-handshake-traffic-secret,
    exporter-secret, client-traffic-secret-0, server-traffic-secret-0". *)
Definition canonical_labels : list (list ascii) :=
  [ lit "client-random";
    lit "client-handshake-traffic-secret";
    lit "server-handshake-traffic-secret";
    lit "exporter-secret";
    lit "client-traffic-secret-0";
    lit "server-traffic-secret-0" ].

Definition should_forward_as_specified (line : list ascii) : bool :=
  bool_decide (lowered line ∈ map lowered canonical_labels).

Section Flags.

(** Constants of tls_mod.h and of the core's ip_addr.h. *)
Variables KSR_TLS_KEYLOG_MODE_INIT KSR_TLS_KEYLOG_MODE_FILE
          KSR_TLS_KEYLOG_MODE_PEER PROTO_UDP : Z.

(** The test [(m & KSR_TLS_KEYLOG_MODE_INIT) && (m & channel)] on the
    value [m] that [ksr_tls_keylog_mode] points to. *)
Definition mode_has (m channel : Z) : bool :=
  truthy (Z.land m KSR_TLS_KEYLOG_MODE_INIT) && truthy (Z.land m channel).

(** [str.s == NULL || str.len <= 0]. *)
Definition str_unset (x : str) : bool :=
  match str_s x with
  | None => true
  | Some _ => str_len x <=? 0
  end.

(** *** The file sink *)

(** [ksr_tls_keylog_file_init()].  [lock_alloc_ok] and [lock_init_ok] are
    the answers of [lock_alloc] and [lock_init]. *)
Definition ksr_tls_keylog_file_init (lock_alloc_ok lock_init_ok : bool) (g : globals)
  : Z * globals * list event :=
  match ksr_tls_keylog_mode g with
  | None => (0, g, [])
  | Some m =>
    if negb (mode_has m KSR_TLS_KEYLOG_MODE_FILE) then (0, g, [])
    else if str_unset (ksr_tls_keylog_file g) then (-1, g, [])
    else
      match ksr_tls_keylog_file_lock g with
      | Some _ => (0, g, [])
      | None =>
        if lock_alloc_ok then
          if lock_init_ok then
            (0, set_file_lock g (Some (mk_lock true false)),
             [ev_lock_alloc true; ev_lock_init true])
          else
            (-3, set_file_lock g (Some (mk_lock false false)),
             [ev_lock_alloc true; ev_lock_init false])
        else
          (-2, set_file_lock g None, [ev_lock_alloc false])
      end
  end.

(** [lock_get]: waits while the lock is held; on memory that [lock_init]
    never set up its behaviour is undefined. *)
Definition lock_get (l : gen_lock_t) : outcome gen_lock_t :=
  if negb (lock_ready l) then Fault
  else if lock_held l then Blocked
  else Done (mk_lock true true).

Definition lock_release (l : gen_lock_t) : gen_lock_t :=
  mk_lock (lock_ready l) false.

(** [fprintf(lf, "%s\n", line)] on a stream opened for appending. *)
Definition append_line (old line : list ascii) : list ascii :=
  old ++ c_str line ++ lit (String "010" EmptyString).

(** [ksr_tls_keylog_file_write(ssl, line)]; [ssl] is not used.  [fopen_ok]
    is the answer of [fopen]; [fs] maps the path of a file to its content. *)
Definition ksr_tls_keylog_file_write (fopen_ok : bool) (line : list ascii)
    (g : globals) (fs : gmap (list ascii) (list ascii))
  : outcome (Z * globals * gmap (list ascii) (list ascii) * list event) :=
  match ksr_tls_keylog_file_lock g with
  | None => Done (0, g, fs, [])
  | Some lk =>
    match lock_get lk with
    | Done held =>
      match str_s (ksr_tls_keylog_file g) with
      | None => Fault
      | Some s =>
        let path := c_str s in
        let unlocked := set_file_lock g (Some (lock_release held)) in
        if fopen_ok then
          Done (0, unlocked,
                <[path := append_line (default [] (fs !! path)) line]> fs,
                [ev_lock_get; ev_fopen path (lit "a") true;
                 ev_fprintf (c_str line ++ lit (String "010" EmptyString));
                 ev_fclose; ev_lock_release])
        else
          Done (-1, unlocked, fs,
                [ev_lock_get; ev_fopen path (lit "a") false; ev_log; ev_lock_release])
      end
    | Fault => Fault
    | Blocked => Blocked
    | OutOfFuel => OutOfFuel
    end
  end.

(** *** The peer sink *)

(** The core functions that [ksr_tls_keylog_peer_init] calls:
    [parse_phostport] gives host, port and protocol or fails;
    [sip_hostport2su] gives the resolved address and the protocol it settled
    on, or fails. *)
Record resolver : Type := mk_resolver {
  init_dest_info : dest_info_t → dest_info_t;
  parse_phostport : list ascii → option (list ascii * Z * Z);
  sip_hostport2su : list ascii → Z → Z → option (sockaddr_union * Z)
}.

Definition ksr_tls_keylog_peer_init (env : resolver) (g : globals)
  : Z * globals * list event :=
  match ksr_tls_keylog_mode g with
  | None => (0, g, [])
  | Some m =>
    if negb (mode_has m KSR_TLS_KEYLOG_MODE_PEER) then (0, g, [])
    else
      match str_s (ksr_tls_keylog_peer g) with
      | None => (-1, g, [])
      | Some s =>
        if str_len (ksr_tls_keylog_peer g) <=? 0 then (-1, g, [])
        else
          let d0 := init_dest_info env (ksr_tls_keylog_peer_dst g) in
          match parse_phostport env (c_str s) with
          | None =>
            (-2, set_peer_dst g d0,
             [ev_init_dest_info; ev_parse_phostport (c_str s) false; ev_log])
          | Some (host, port, pr) =>
            if negb (pr =? PROTO_UDP) then
              (-3, set_peer_dst g d0,
               [ev_init_dest_info; ev_parse_phostport (c_str s) true; ev_log])
            else
              let d1 := mk_dest (send_sock d0) (to d0) pr in
              match sip_hostport2su env host port pr with
              | None =>
                (-4, set_peer_dst g d1,
                 [ev_init_dest_info; ev_parse_phostport (c_str s) true;
                  ev_sip_hostport2su host port false; ev_log])
              | Some (su, pr') =>
                (0, set_peer_dst g (mk_dest (send_sock d1) su pr'),
                 [ev_init_dest_info; ev_parse_phostport (c_str s) true;
                  ev_sip_hostport2su host port true])
              end
          end
      end
  end.

(** The core functions that [ksr_tls_keylog_peer_send] calls:
    [get_send_socket(NULL, &to, proto)] and [udp_send(dst, buf, len)], the
    latter seen as a function of the [len] bytes at [buf]. *)
Record network : Type := mk_network {
  get_send_socket : sockaddr_union → Z → option positive;
  udp_send : dest_info_t → list ascii → Z
}.

(** [ksr_tls_keylog_peer_send(ssl, line)]; [ssl] is not used. *)
Definition ksr_tls_keylog_peer_send (env : network) (line : list ascii) (g : globals)
  : Z * globals * list event :=
  match ksr_tls_keylog_mode g with
  | None => (0, g, [])
  | Some m =>
    if negb (mode_has m KSR_TLS_KEYLOG_MODE_PEER) then (0, g, [])
    else
      let d := ksr_tls_keylog_peer_dst g in
      let '(d1, ev1) :=
        match send_sock d with
        | Some _ => (d, [])
        | None =>
          let sock := get_send_socket env (to d) PROTO_UDP in
          (mk_dest sock (to d) (proto d),
           [ev_get_send_socket (to d) PROTO_UDP (bool_decide (is_Some sock))])
        end in
      match send_sock d1 with
      | None => (-2, set_peer_dst g d1, ev1 ++ [ev_log])
      | Some _ =>
        (* strlen(line) bytes starting at line *)
        let payload := take (Z.to_nat (strlen line)) line in
        let rc := udp_send env d1 payload in
        if rc <? 0 then
          (-1, set_peer_dst g d1, ev1 ++ [ev_udp_send d1 payload rc; ev_log])
        else
          (0, set_peer_dst g d1, ev1 ++ [ev_udp_send d1 payload rc])
      end
  end.

(** *** Views used to state the properties *)

(** A channel is active when the mode is set and has both the INIT bit and
    the bit of the channel. *)
Definition channel_active (channel : Z) (g : globals) : bool :=
  match ksr_tls_keylog_mode g with
  | None => false
  | Some m => mode_has m channel
  end.

(** The lock is only ever set by a call that found the file channel active
    and the path set; neither changes afterwards. *)
Definition lock_implies_enabled (g : globals) : Prop :=
  is_Some (ksr_tls_keylog_file_lock g) →
  channel_active KSR_TLS_KEYLOG_MODE_FILE g = true ∧
  str_unset (ksr_tls_keylog_file g) = false.

(** A run of calls of [ksr_tls_keylog_file_init], one per pair of answers;
    for each call: the variables before it, its return value, its calls out,
    and the variables after it. *)
Fixpoint file_init_run (answers : list (bool * bool)) (g : globals)
  : list (globals * Z * list event * globals) :=
  match answers with
  | [] => []
  | (a, i) :: rest =>
    let '(r, g', ev) := ksr_tls_keylog_file_init a i g in
    (g, r, ev, g') :: file_init_run rest g'
  end.

Definition is_lock_init (e : event) : bool :=
  match e with
  | ev_lock_init _ => true
  | _ => false
  end.

(** How often [lock_init] is called in a run. *)
Definition lock_inits (tr : list (globals * Z * list event * globals)) : nat :=
  length (List.filter is_lock_init (concat (map (λ c, c.1.2) tr))).

(** The payloads handed to [udp_send]. *)
Fixpoint datagrams (evs : list event) : list (list ascii) :=
  match evs with
  | [] => []
  | ev_udp_send _ payload _ :: rest => payload :: datagrams rest
  | _ :: rest => datagrams rest
  end.

Definition is_get_send_socket (e : event) : bool :=
  match e with
  | ev_get_send_socket _ _ _ => true
  | _ => false
  end.

Definition is_fopen (e : event) : bool :=
  match e with
  | ev_fopen _ _ _ => true
  | _ => false
  end.

End Flags.

(** *** Sample configurations *)

(** The variables when the process starts, set for both channels (bits 0,
    2 and 3 of the mode): no lock yet, destination all zero. *)
Definition globals_at_start : globals :=
  mk_globals (Some 13)
             (mk_str (Some (lit "/tmp/keys.log")) 13)
             (mk_str (Some (lit "udp:127.0.0.1:9999")) 18)
             None
             (mk_dest None (mk_su 0 0) 0).

(** The same after a successful [ksr_tls_keylog_file_init]. *)
Definition globals_file_ready : globals :=
  set_file_lock globals_at_start (Some (mk_lock true false)).

(** A resolver that knows the configured peer, with [PROTO_UDP] = 1. *)
Definition sample_resolver : resolver :=
  mk_resolver
    (λ _, mk_dest None (mk_su 0 0) 0)
    (λ spec, if decide (spec = lit "udp:127.0.0.1:9999")
             then Some (lit "127.0.0.1", 9999, 1) else None)
    (λ host port pr, Some (mk_su 2130706433 port, pr)).

(** A network with one socket that sends whatever it is given. *)
Definition sample_network : network :=
  mk_network (λ _ _, Some 7%positive) (λ _ payload, Z.of_nat (length payload)).

(** A network without a socket to send from. *)
Definition no_network : network :=
  mk_network (λ _ _, None) (λ _ _, -1).

End Keylog.

(** ** Copying a string to shared memory *)

Module Shm.
Import CString.

(** [int] has 32 bits and [size_t] 64, as on the 64-bit platforms the server
    runs on; a value that does not fit an [int] is reduced modulo 2^32 when
    it is converted (what gcc and clang define). *)
Definition INT_MAX : Z := 2 ^ 31 - 1.

Definition to_int (z : Z) : Z := (z + 2 ^ 31) mod 2 ^ 32 - 2 ^ 31.

Definition to_size_t (z : Z) : Z := z mod 2 ^ 64.

(** [shm_asciiz_dup(dest, val)].  [dest] is the content of the cell that the
    first argument points to, [val] the bytes that the second points to
    ([None] for [NULL]), [shm] the blocks of shared memory, and [shm_malloc]
    the allocator's answer to a request of a given size.  The result is the
    return value, the new content of the cell and the new shared memory. *)
Definition shm_asciiz_dup (shm_malloc : Z → option positive)
    (dest : option positive) (val : option (list ascii))
    (shm : gmap positive (list ascii))
  : outcome (Z * option positive * gmap positive (list ascii)) :=
  match val with
  | None => Done (0, None, shm)
  | Some v =>
    let len := to_int (strlen v) in                  (* int len = strlen(val) *)
    if len =? INT_MAX then Fault                     (* len + 1 overflows *)
    else
      let size := to_size_t (len + 1) in
      match shm_malloc size with
      | None => Done (-1, dest, shm)                 (* ERR("No memory left") *)
      | Some ret =>
        if size <=? strlen v + 1 then                (* memcpy(ret, val, len + 1) *)
          Done (0, Some ret, <[ret := take (Z.to_nat size) (c_str v ++ [NUL])]> shm)
        else Fault                                   (* reads past the terminator *)
      end
    end.

(** The copy promised for every [val] whatever its length: when the
    allocator serves every request, the result is 0 and the cell points to a
    block holding the string and its terminator. *)
Definition copies_every_string : Prop :=
  ∀ (ret : positive) (dest : option positive) (v : list ascii)
    (shm : gmap positive (list ascii)),
    ∃ shm',
      shm_asciiz_dup (λ _, Some ret) dest (Some v) shm = Done (0, Some ret, shm') ∧
      shm' !! ret = Some (c_str v ++ [NUL]).

(** A string of 2^32 letters. *)
Definition four_gib_of_a : list ascii := repeat "a"%char (Z.to_nat (2 ^ 32)).

End Shm.

(** ** Leftover OpenSSL errors *)

Module Openssl.
Import Shm.

(** The conversion of an [int] to [unsigned long] (sign extension). *)
Definition to_ulong (z : Z) : Z := z mod 2 ^ 64.

(** OpenSSL's error queue holds the codes of the errors not yet fetched,
    earliest first.  [ERR_get_error()] gives the earliest code and, as the
    comment above [tls_openssl_clear_errors] says, "also removes the error
    from the OpenSSL error stack"; on an empty queue it gives 0. *)
Definition ERR_get_error (queue : list Z) : Z * list Z :=
  match queue with
  | [] => (0, [])
  | e :: rest => (e, rest)
  end.

(** [tls_openssl_clear_errors()].  [logged] collects the codes handed to
    [ERR_error_string] for the INFO lines, oldest first; the result is the
    queue left behind and the codes logged. *)
Fixpoint tls_openssl_clear_errors (fuel : nat) (queue : list Z) (logged : list Z)
  : outcome (list Z * list Z) :=
  match fuel with
  | O => OutOfFuel
  | S fuel' =>
    let '(e, rest) := ERR_get_error queue in
    let i := to_int e in                             (* int i = ERR_get_error() *)
    if i =? 0 then Done (rest, logged)
    else tls_openssl_clear_errors fuel' rest (logged ++ [to_ulong i])
  end.

End Openssl.

(** ** The sinks in use *)

Module KeylogUse.
Import CString Keylog.



(** A series of calls of [ksr_tls_keylog_peer_send], each with the network
    as it is at that moment and the line; for each call the line, the return
    value and the calls out. *)
Fixpoint peer_send_run (INIT PEER PROTO_UDP : Z)
    (calls : list (network * list ascii)) (g : globals)
  : list (list ascii * Z * list event) * globals :=
  match calls with
  | [] => ([], g)
  | (env, line) :: rest =>
    let '(r, g1, ev) := ksr_tls_keylog_peer_send INIT PEER PROTO_UDP env line g in
    let '(tr, g2) := peer_send_run INIT PEER PROTO_UDP rest g1 in
    ((line, r, ev) :: tr, g2)
  end.

(** All calls out of a series, in order. *)
Definition calls_out (tr : list (list ascii * Z * list event)) : list event :=
  concat (map (λ c : list ascii * Z * list event, c.2) tr).

(** The lines of the calls that did not end for want of a socket. *)
Definition lines_sent (tr : list (list ascii * Z * list event)) : list (list ascii) :=
  concat (map (λ c : list ascii * Z * list event,
                 if c.1.2 =? -2 then [] else [c_str c.1.1]) tr).

Definition got_send_socket (e : event) : bool :=
  match e with
  | ev_get_send_socket _ _ true => true
  | _ => false
  end.

(** Where the datagrams of a series were addressed to. *)
Fixpoint destinations (evs : list event) : list (sockaddr_union * Z) :=
  match evs with
  | [] => []
  | ev_udp_send d _ _ :: rest => (to d, proto d) :: destinations rest
  | _ :: rest => destinations rest
  end.

(** Whom [get_send_socket] was asked about. *)
Fixpoint socket_requests (evs : list event) : list (sockaddr_union * Z) :=
  match evs with
  | [] => []
  | ev_get_send_socket su pr _ :: rest => (su, pr) :: socket_requests rest
  | _ :: rest => socket_requests rest
  end.

(** A line with its ASCII letters in upper case. *)
Definition toupper (c : Z) : Z :=
  if (97 <=? c) && (c <=? 122) then c - 32 else c.

Definition strupr (s : list ascii) : list ascii :=
  map (λ c, ascii_of_N (Z.to_N (toupper (byte c)))) s.

Definition strlwr (s : list ascii) : list ascii :=
  map (λ c, ascii_of_N (Z.to_N (tolower (byte c)))) s.

(** [a] followed by at least one more byte makes up [b]. *)
Definition extends (a b : list Z) : bool :=
  (length a <? length b)%nat && bool_decide (take (length a) b = a).

(** No entry of the filter table is, ignoring case, another entry or the
    same entry with something after it. *)
Definition no_entry_extends_another : bool :=
  forallb (λ f, forallb (λ f', negb (extends (lowered f) (lowered f')))
                        ksr_tls_keylog_vfilters)
          ksr_tls_keylog_vfilters.

End KeylogUse.

(** * Properties *)

Module RegistryTheory.
Import Registry.

Section Chain.
Implicit Types (h : gmap addr tls_domains_cfg_t) (l : list addr) (a : addr).

Lemma filter_ext_elem (P Q : addr → Prop) `{!∀ x, Decision (P x)}
    `{!∀ x, Decision (Q x)} l :
  (∀ x, x ∈ l → P x ↔ Q x) → filter P l = filter Q l.
Proof.
  induction l as [|x l IH]; intros HPQ; [done|].
  rewrite !filter_cons.
  assert (Hl : filter P l = filter Q l).
  { apply IH. intros y Hy. apply HPQ. by right. }
  destruct (decide (P x)) as [Hp|Hp], (decide (Q x)) as [Hq|Hq]; rewrite Hl; try done.
  - exfalso. apply Hq, HPQ; [left|done].
  - exfalso. apply Hp, HPQ; [left|done].
Qed.

(** Links that agree on [l] give the same chain. *)
Lemma is_chain_frame h h' l p :
  (∀ a n, a ∈ l → h !! a = Some n → ∃ n', h' !! a = Some n' ∧ next n' = next n) →
  is_chain h p l → is_chain h' p l.
Proof.
  revert p. induction l as [|a l IH]; intros p Hag; simpl; [done|].
  intros (-> & n & Hn & Hc). split; [done|].
  destruct (Hag a n) as (n' & Hn' & Hnx); [left|done|].
  exists n'. split; [done|]. rewrite Hnx. apply IH; [|done].
  intros b m Hb. apply Hag. by right.
Qed.

Lemma is_chain_frame_eq h h' l p :
  (∀ a, a ∈ l → h' !! a = h !! a) → is_chain h p l → is_chain h' p l.
Proof.
  intros Hag. apply is_chain_frame. intros a n Ha Hn.
  exists n. by rewrite Hag.
Qed.

(** The chain from a pointer is unique. *)
Lemma is_chain_func h p l1 l2 : is_chain h p l1 → is_chain h p l2 → l1 = l2.
Proof.
  revert p l2. induction l1 as [|a l1 IH]; intros p [|b l2]; simpl.
  - done.
  - intros -> (? & _). done.
  - intros (-> & _) ?. done.
  - intros (-> & n & Hn & H1) (Hb & m & Hm & H2).
    injection Hb as <-. rewrite Hn in Hm. injection Hm as <-.
    f_equal. by eapply IH.
Qed.

Lemma is_chain_suffix h p l1 l2 :
  is_chain h p (l1 ++ l2) → ∃ q, is_chain h q l2.
Proof.
  revert p. induction l1 as [|a l1 IH]; intros p; simpl.
  - eauto.
  - intros (_ & n & _ & Hc). eauto.
Qed.

(** A chain that reaches [NULL] never visits a node twice. *)
Lemma is_chain_NoDup h p l : is_chain h p l → NoDup l.
Proof.
  revert p. induction l as [|a l IH]; intros p; simpl.
  - constructor.
  - intros (-> & n & Hn & Hc). constructor; [|by eapply IH].
    intros Hin. apply list_elem_of_split in Hin as (l1 & l2 & ->).
    destruct (is_chain_suffix _ _ _ _ Hc) as (q & Hq).
    pose proof Hq as (-> & m & Hm & Hc2). rewrite Hn in Hm. injection Hm as <-.
    pose proof (is_chain_func _ _ _ _ Hc Hc2) as Heq.
    apply (f_equal length) in Heq. rewrite length_app in Heq. simpl in Heq. lia.
Qed.

Lemma is_chain_live h p l a : is_chain h p l → a ∈ l → is_Some (h !! a).
Proof.
  revert p. induction l as [|b l IH]; intros p; simpl.
  - intros _ Ha. by apply elem_of_nil in Ha.
  - intros (-> & n & Hn & Hc) Ha. apply elem_of_cons in Ha as [->|Ha]; eauto.
Qed.

(** The loop, started on a predecessor [prev] whose link is [cur] and a
    chain [l] from [cur], ends after at most [length l] iterations. *)
Lemma gc_loop_spec l : ∀ fuel h prev pn cur freed,
  (length l ≤ fuel)%nat →
  h !! prev = Some pn → next pn = cur →
  is_chain h cur l → prev ∉ l →
  ∃ h',
    gc_loop fuel h prev cur freed = Done (h', freed ++ filter (unreferenced h) l)
    ∧ is_chain h' (Some prev) (prev :: filter (referenced h) l)
    ∧ (∀ a, a ∉ l → a ≠ prev → h' !! a = h !! a)
    ∧ (∀ a, a ∉ filter (unreferenced h) l → payload <$> h' !! a = payload <$> h !! a)
    ∧ (∀ a, a ∈ filter (unreferenced h) l → h' !! a = None).
Proof.
  induction l as [|c l IH]; intros fuel h prev pn cur freed Hfuel Hprev Hnext Hchain Hnotin.
  - simpl in Hchain. subst cur. rewrite Hchain. exists h.
    assert (gc_loop fuel h prev None freed = Done (h, freed)) as ->
      by (by destruct fuel).
    rewrite !filter_nil, app_nil_r. split; [done|]. split.
    { split; [done|]. exists pn. by rewrite Hchain. }
    split; [done|]. split; [done|]. intros a Ha. by apply elem_of_nil in Ha.
  - pose proof (is_chain_NoDup _ _ _ Hchain) as Hnd.
    apply NoDup_cons in Hnd as [Hcl Hnd].
    simpl in Hchain. destruct Hchain as (Hcur & cn & Hcn & Hchain).
    apply not_elem_of_cons in Hnotin as [Hpc Hpl].
    destruct fuel as [|fuel]; [simpl in Hfuel; lia|]. simpl in Hfuel.
    rewrite Hcur. simpl. unfold gc_iter. rewrite Hcn. unfold atomic_get.
    destruct (ref_count cn =? 0) eqn:Hz.
    + apply Z.eqb_eq in Hz.
      assert (Hunref : unreferenced h c) by (exists cn; done).
      rewrite Hprev. unfold tls_free_cfg.
      set (h2 := delete c (<[prev := set_next pn (next cn)]> h)).
      assert (Hsame : ∀ a, a ≠ c → a ≠ prev → h2 !! a = h !! a).
      { intros a Hac Hap. unfold h2.
        rewrite lookup_delete_ne by done. by rewrite lookup_insert_ne. }
      assert (Hp2 : h2 !! prev = Some (set_next pn (next cn))).
      { unfold h2. rewrite lookup_delete_ne by done. apply lookup_insert_eq. }
      assert (Hun2 : ∀ a, a ∈ l → unreferenced h2 a ↔ unreferenced h a).
      { intros a Ha. unfold unreferenced. rewrite Hsame; [done| |]; congruence. }
      destruct (IH fuel h2 prev (set_next pn (next cn)) (next cn) (freed ++ [c]))
        as (h' & Hrun & Hch' & Hframe & Hpay & Hfree); try done.
      { lia. }
      { eapply is_chain_frame_eq; [|exact Hchain].
        intros a Ha. apply Hsame; congruence. }
      exists h'.
      rewrite (filter_ext_elem (unreferenced h2) (unreferenced h) l Hun2) in Hrun, Hpay, Hfree.
      rewrite (filter_ext_elem (referenced h2) (referenced h) l) in Hch'
        by (intros a Ha; unfold referenced; by rewrite Hun2).
      rewrite (filter_cons_True (unreferenced h)) by done.
      rewrite (filter_cons_False (referenced h)) by (unfold referenced; tauto).
      split; [by rewrite Hrun, <- app_assoc|]. split; [done|]. split; [|split].
      * intros a Ha Hap. apply not_elem_of_cons in Ha as [Hac Hal].
        rewrite Hframe by done. by apply Hsame.
      * intros a Ha. apply not_elem_of_cons in Ha as [Hac Hal].
        rewrite Hpay by done. destruct (decide (a = prev)) as [->|Hap].
        -- rewrite Hp2, Hprev. done.
        -- by rewrite Hsame.
      * intros a Ha. apply elem_of_cons in Ha as [->|Ha]; [|by apply Hfree].
        rewrite Hframe by done. unfold h2. apply lookup_delete_eq.
    + apply Z.eqb_neq in Hz.
      assert (Href : referenced h c).
      { intros (n & Hn & Hz'). congruence. }
      rewrite app_nil_r.
      destruct (IH fuel h c cn (next cn) freed) as (h' & Hrun & Hch' & Hframe & Hpay & Hfree);
        try done.
      { lia. }
      exists h'.
      rewrite (filter_cons_False (unreferenced h)) by done.
      rewrite (filter_cons_True (referenced h)) by done.
      split; [done|]. split; [|split; [|split; [done|done]]].
      * split; [done|]. exists pn. rewrite Hframe by done.
        split; [done|]. rewrite Hnext, Hcur. exact Hch'.
      * intros a Ha Hap. apply not_elem_of_cons in Ha as [Hac Hal]. by apply Hframe.
Qed.

(** A chain is never longer than the number of live objects. *)
Lemma is_chain_length h p l : is_chain h p l → (length l ≤ size h)%nat.
Proof.
  intros Hc. pose proof (is_chain_NoDup _ _ _ Hc) as Hnd.
  rewrite <- size_dom. rewrite <- (size_list_to_set (C := gset addr) l Hnd).
  apply subseteq_size. intros a Ha. apply elem_of_list_to_set in Ha.
  apply elem_of_dom. by eapply is_chain_live.
Qed.

(** [collect_garbage] on a registry whose head starts the chain [hd :: l]. *)
Lemma collect_garbage_spec (s : registry) hd l fuel :
  tls_domains_cfg_lock s = false →
  tls_domains_cfg s = Some hd →
  is_chain (heap s) (Some hd) (hd :: l) →
  (length l ≤ fuel)%nat →
  ∃ h',
    collect_garbage fuel s
      = Done (mk_registry h' (Some hd) false, filter (unreferenced (heap s)) l)
    ∧ is_chain h' (Some hd) (hd :: filter (referenced (heap s)) l)
    ∧ (∀ a, a ∉ hd :: l → h' !! a = heap s !! a)
    ∧ (∀ a, a ∉ filter (unreferenced (heap s)) l →
            payload <$> h' !! a = payload <$> heap s !! a)
    ∧ (∀ a, a ∈ filter (unreferenced (heap s)) l → h' !! a = None).
Proof.
  intros Hlock Hhead Hchain Hfuel.
  pose proof (is_chain_NoDup _ _ _ Hchain) as Hnd.
  apply NoDup_cons in Hnd as [Hhl _].
  destruct Hchain as (_ & hn & Hhn & Hchain).
  destruct (gc_loop_spec l fuel (heap s) hd hn (next hn) [] Hfuel Hhn eq_refl Hchain Hhl)
    as (h' & Hrun & Hch & Hframe & Hpay & Hfree).
  exists h'. unfold collect_garbage. rewrite Hlock, Hhead, Hhn, Hrun. simpl.
  split; [done|]. split; [done|]. split; [|done].
  intros a Ha. apply not_elem_of_cons in Ha as [? ?]. by apply Hframe.
Qed.

(** The loop makes exactly one iteration per node after the head: with
    fewer iterations allowed than the chain is long it is still running. *)
Lemma gc_loop_linear l : ∀ fuel h prev pn cur freed,
  (fuel < length l)%nat →
  h !! prev = Some pn →
  is_chain h cur l → prev ∉ l →
  gc_loop fuel h prev cur freed = OutOfFuel.
Proof.
  induction l as [|c l IH]; intros fuel h prev pn cur freed Hfuel Hprev Hchain Hnotin.
  - simpl in Hfuel. lia.
  - pose proof (is_chain_NoDup _ _ _ Hchain) as Hnd.
    apply NoDup_cons in Hnd as [Hcl Hnd].
    destruct Hchain as (Hcur & cn & Hcn & Hchain).
    apply not_elem_of_cons in Hnotin as [Hpc Hpl].
    rewrite Hcur. destruct fuel as [|fuel]; [done|]. simpl in Hfuel.
    simpl. unfold gc_iter. rewrite Hcn. unfold atomic_get.
    destruct (ref_count cn =? 0).
    + rewrite Hprev. eapply IH; [lia| | |done].
      * unfold tls_free_cfg. rewrite lookup_delete_ne by done. apply lookup_insert_eq.
      * eapply is_chain_frame_eq; [|exact Hchain]. intros a Ha. unfold tls_free_cfg.
        rewrite lookup_delete_ne by congruence. rewrite lookup_insert_ne; congruence.
    + eapply IH; [lia|exact Hcn|done|done].
Qed.

(** Overwriting the count of a node that is not on the part of the chain
    still to be visited (the head, for one) changes nothing in what the loop
    does: that count is never read. *)
Lemma gc_loop_count_unread (p : addr) (c : Z) l : ∀ fuel h prev pn cur freed,
  h !! prev = Some pn →
  is_chain h cur l → prev ∉ l → p ∉ l →
  gc_loop fuel (set_count_at p c h) prev cur freed
  = outcome_map (λ '(h', fr), (set_count_at p c h', fr))
                (gc_loop fuel h prev cur freed).
Proof.
  induction l as [|x l IH]; intros fuel h prev pn cur freed Hprev Hchain Hnotin Hp.
  - simpl in Hchain. subst cur. by destruct fuel.
  - pose proof (is_chain_NoDup _ _ _ Hchain) as Hnd.
    apply NoDup_cons in Hnd as [Hxl Hnd].
    destruct Hchain as (Hcur & cn & Hcn & Hchain).
    apply not_elem_of_cons in Hnotin as [Hpx Hpl].
    apply not_elem_of_cons in Hp as [Hpx' Hpl'].
    rewrite Hcur. destruct fuel as [|fuel]; [done|].
    simpl. unfold gc_iter. unfold set_count_at at 1. rewrite lookup_alter_ne by done.
    rewrite Hcn. unfold atomic_get.
    destruct (ref_count cn =? 0).
    + rewrite Hprev. unfold tls_free_cfg.
      set (h2 := delete x (<[prev := set_next pn (next cn)]> h)).
      assert (Hp2 : h2 !! prev = Some (set_next pn (next cn))).
      { unfold h2. rewrite lookup_delete_ne by done. apply lookup_insert_eq. }
      assert (Hch2 : is_chain h2 (next cn) l).
      { eapply is_chain_frame_eq; [|exact Hchain]. intros a Ha. unfold h2.
        rewrite lookup_delete_ne by congruence. rewrite lookup_insert_ne; congruence. }
      rewrite <- (IH fuel h2 prev _ (next cn) (freed ++ [x]) Hp2 Hch2 Hpl Hpl').
      destruct (decide (p = prev)) as [->|Hne].
      * unfold set_count_at at 1. rewrite lookup_alter_eq, Hprev. simpl.
        f_equal. apply map_eq. intros a. unfold h2, set_count_at.
        destruct (decide (a = x)) as [->|Hax].
        { rewrite lookup_delete_eq, lookup_alter_ne by done. by rewrite lookup_delete_eq. }
        rewrite lookup_delete_ne by done.
        destruct (decide (a = prev)) as [->|Hap].
        { rewrite lookup_insert_eq, lookup_alter_eq, lookup_delete_ne by done.
          by rewrite lookup_insert_eq. }
        rewrite lookup_insert_ne, !lookup_alter_ne, lookup_delete_ne by done.
        by rewrite lookup_insert_ne.
      * unfold set_count_at at 1. rewrite lookup_alter_ne, Hprev by done.
        f_equal. apply map_eq. intros a. unfold h2, set_count_at.
        destruct (decide (a = x)) as [->|Hax].
        { rewrite lookup_delete_eq, lookup_alter_ne by done. by rewrite lookup_delete_eq. }
        rewrite lookup_delete_ne by done.
        destruct (decide (a = prev)) as [->|Hap].
        { rewrite lookup_insert_eq, lookup_alter_ne, lookup_delete_ne by done.
          by rewrite lookup_insert_eq. }
        rewrite lookup_insert_ne by done.
        destruct (decide (a = p)) as [->|Hap'].
        { rewrite !lookup_alter_eq, lookup_delete_ne by done.
          by rewrite lookup_insert_ne. }
        rewrite !lookup_alter_ne, lookup_delete_ne by done.
        by rewrite lookup_insert_ne.
    + by apply (IH fuel h x cn).
Qed.

End Chain.

(** *** Counting the references held *)

Section Held.
Implicit Types (a b : addr) (rs : list addr).

Lemma held_nonneg a rs : 0 ≤ held a rs.
Proof. unfold held. lia. Qed.

Lemma held_cons_eq a rs : held a (a :: rs) = held a rs + 1.
Proof. unfold held. rewrite filter_cons_True by done. simpl. lia. Qed.

Lemma held_cons_ne a b rs : b ≠ a → held a (b :: rs) = held a rs.
Proof. intros Hne. unfold held. by rewrite filter_cons_False. Qed.

Lemma held_app a rs1 rs2 : held a (rs1 ++ rs2) = held a rs1 + held a rs2.
Proof. unfold held. rewrite filter_app, length_app. lia. Qed.

Lemma held_elem a rs : a ∈ rs → 0 < held a rs.
Proof.
  intros Hin. apply list_elem_of_split in Hin as (l1 & l2 & ->).
  rewrite held_app, held_cons_eq.
  pose proof (held_nonneg a l1). pose proof (held_nonneg a l2). lia.
Qed.

Lemma held_not_elem a rs : a ∉ rs → held a rs = 0.
Proof.
  intros Hnin. unfold held.
  destruct (filter (λ b, b = a) rs) as [|x l] eqn:E; [done|].
  assert (Hx : x ∈ filter (λ b, b = a) rs) by (rewrite E; left).
  apply list_elem_of_filter in Hx as [-> Hx]. done.
Qed.

Lemma held_delete a b rs i :
  rs !! i = Some b →
  held a (delete i rs) = held a rs - (if decide (b = a) then 1 else 0).
Proof.
  intros Hi. rewrite <- (take_drop_middle rs i b Hi) at 2.
  rewrite delete_take_drop, !held_app.
  destruct (decide (b = a)) as [->|Hne].
  - rewrite held_cons_eq. lia.
  - rewrite held_cons_ne by done. lia.
Qed.

End Held.

(** *** Every operation keeps the server state consistent *)

Section Steps.
Implicit Types (st : system) (s : registry).

Lemma acquire_consistent st :
  consistent st → ∃ st', step Acquire st = Done st' ∧ consistent st'.
Proof.
  intros (Hlock & hd & l & Hhead & Hchain & Hcnt & Href).
  pose proof Hchain as (_ & hn & Hhn & _).
  simpl. unfold acquire_current. rewrite Hhead, Hhn.
  eexists. split; [reflexivity|].
  split; [done|]. exists hd, l. cbn [reg refs heap tls_domains_cfg]. split; [done|]. split; [|split].
  - eapply is_chain_frame; [|exact Hchain]. intros a n Ha Hn.
    destruct (decide (a = hd)) as [->|Hne].
    + rewrite lookup_insert_eq. rewrite Hhn in Hn. injection Hn as <-. eauto.
    + rewrite lookup_insert_ne by done. eauto.
  - intros a n Ha Hn. destruct (decide (a = hd)) as [->|Hne].
    + rewrite lookup_insert_eq in Hn. injection Hn as <-. simpl.
      rewrite held_cons_eq. f_equal. by apply Hcnt.
    + rewrite lookup_insert_ne in Hn by done.
      rewrite held_cons_ne by done. by apply Hcnt.
  - intros a Ha. apply elem_of_cons in Ha as [->|Ha]; [left|by apply Href].
Qed.

Lemma release_consistent st i :
  consistent st → ∃ st', step (Release i) st = Done st' ∧ consistent st'.
Proof.
  intros (Hlock & hd & l & Hhead & Hchain & Hcnt & Href).
  simpl. destruct (refs st !! i) as [b|] eqn:Hi.
  - assert (Hb : b ∈ hd :: l).
    { apply Href. apply list_elem_of_lookup. eauto. }
    destruct (is_chain_live _ _ _ _ Hchain Hb) as [bn Hbn].
    unfold release. rewrite Hbn. eexists. split; [reflexivity|].
    split; [done|]. exists hd, l. cbn [reg refs heap tls_domains_cfg]. split; [done|]. split; [|split].
    + eapply is_chain_frame; [|exact Hchain]. intros a n Ha Hn.
      destruct (decide (a = b)) as [->|Hne].
      * rewrite lookup_insert_eq. rewrite Hbn in Hn. injection Hn as <-. eauto.
      * rewrite lookup_insert_ne by done. eauto.
    + intros a n Ha Hn. rewrite (held_delete a b _ _ Hi).
      destruct (decide (b = a)) as [->|Hne].
      * rewrite lookup_insert_eq in Hn. injection Hn as <-. simpl.
        f_equal. by apply Hcnt.
      * rewrite lookup_insert_ne in Hn by done.
        rewrite Z.sub_0_r. by apply Hcnt.
    + intros a Ha. apply Href. apply list_elem_of_lookup in Ha as [j Hj].
      apply list_elem_of_lookup. destruct (decide (j < i)%nat).
      * exists j. by rewrite list_lookup_delete_lt in Hj.
      * exists (S j). rewrite list_lookup_delete_ge in Hj by lia. done.
  - eexists. split; [reflexivity|]. split; [done|]. exists hd, l. done.
Qed.

Lemma publish_consistent st a d :
  consistent st → ∃ st', step (Publish a d) st = Done st' ∧ consistent st'.
Proof.
  intros Hst. pose proof Hst as (Hlock & hd & l & Hhead & Hchain & Hcnt & Href).
  simpl. unfold publish. rewrite Hlock.
  destruct a as [g|]; [|destruct st; eauto].
  destruct (heap (reg st) !! g) as [gn|] eqn:Hg; [destruct st; eauto|].
  eexists. split; [reflexivity|].
  assert (Hgl : g ∉ hd :: l).
  { intros Hin. destruct (is_chain_live _ _ _ _ Hchain Hin) as [? ?]. congruence. }
  split; [done|]. exists g, (hd :: l). cbn [reg refs heap tls_domains_cfg]. split; [done|]. split; [|split].
  - split; [done|]. eexists. rewrite lookup_insert_eq. split; [done|]. simpl.
    rewrite Hhead. eapply (is_chain_frame_eq _ _ (hd :: l)); [|exact Hchain].
    intros b Hb. rewrite lookup_insert_ne; [done|]. congruence.
  - intros b n Hb Hn. destruct (decide (b = g)) as [->|Hne].
    + rewrite lookup_insert_eq in Hn. injection Hn as <-. simpl.
      symmetry. apply held_not_elem. intros Hin. by apply Hgl, Href.
    + rewrite lookup_insert_ne in Hn by done.
      apply elem_of_cons in Hb as [?|Hb]; [done|]. by apply Hcnt.
  - intros b Hb. right. by apply Href.
Qed.

Lemma sweep_consistent st :
  consistent st → ∃ st', step Sweep st = Done st' ∧ consistent st'.
Proof.
  intros (Hlock & hd & l & Hhead & Hchain & Hcnt & Href).
  assert (Hfuel : (length l ≤ size (heap (reg st)))%nat).
  { pose proof (is_chain_length _ _ _ Hchain) as Hlen. simpl in Hlen. lia. }
  destruct (collect_garbage_spec _ hd l _ Hlock Hhead Hchain Hfuel)
    as (h' & Hrun & Hch & Hframe & Hpay & Hfree).
  simpl step. rewrite Hrun. eexists. split; [reflexivity|].
  assert (Hkeep : ∀ a, a ∈ hd :: filter (referenced (heap (reg st))) l →
                       a ∉ filter (unreferenced (heap (reg st))) l).
  { pose proof (is_chain_NoDup _ _ _ Hchain) as Hnd.
    apply NoDup_cons in Hnd as [Hhl _].
    intros a Ha Hu. apply list_elem_of_filter in Hu as [Hu Hal].
    apply elem_of_cons in Ha as [->|Ha]; [done|].
    apply list_elem_of_filter in Ha as [Hr _]. by apply Hr. }
  split; [done|]. exists hd, (filter (referenced (heap (reg st))) l). cbn [reg refs heap tls_domains_cfg].
  split; [done|]. split; [done|]. split.
  - intros a n Ha Hn. specialize (Hpay a (Hkeep a Ha)). rewrite Hn in Hpay.
    destruct (heap (reg st) !! a) as [m|] eqn:Hm; [|done].
    simpl in Hpay. injection Hpay as Hd Hr. rewrite Hr. apply (Hcnt a m); [|done].
    apply elem_of_cons in Ha as [->|Ha]; [left|right].
    by apply list_elem_of_filter in Ha as [_ ?].
  - intros a Ha. pose proof (Href a Ha) as Hal.
    apply elem_of_cons in Hal as [->|Hal]; [left|right].
    apply list_elem_of_filter. split; [|done].
    intros (n & Hn & Hz). pose proof (held_elem a _ Ha) as Hpos.
    rewrite <- (Hcnt a n) in Hpos; [lia|by right|done].
Qed.

Lemma step_consistent o st :
  consistent st → ∃ st', step o st = Done st' ∧ consistent st'.
Proof.
  destruct o; auto using acquire_consistent, release_consistent,
    publish_consistent, sweep_consistent.
Qed.

Lemma run_consistent ops : ∀ st,
  consistent st → ∃ st', run ops st = Done st' ∧ consistent st'.
Proof.
  induction ops as [|o ops IH]; intros st Hst; simpl.
  - eauto.
  - destruct (step_consistent o st Hst) as (st1 & -> & Hst1). by apply IH.
Qed.

End Steps.

(** *** The same with connections coming and going during a sweep *)

Section Interleaving.
Implicit Types (sv : server) (h : gmap addr tls_domains_cfg_t).

(** Unlinking and freeing the node behind [prev] shortens the chain by it. *)
Lemma is_chain_unlink h l1 prev c l3 pn cn : ∀ p,
  is_chain h p (l1 ++ prev :: c :: l3) →
  h !! prev = Some pn → h !! c = Some cn →
  is_chain (delete c (<[prev := set_next pn (next cn)]> h)) p (l1 ++ prev :: l3).
Proof.
  induction l1 as [|x l1 IH]; intros p Hchain Hprev Hc;
    pose proof (is_chain_NoDup _ _ _ Hchain) as Hnd.
  - simpl in Hnd. apply NoDup_cons in Hnd as [Hp Hnd].
    apply NoDup_cons in Hnd as [Hcl3 _].
    apply not_elem_of_cons in Hp as [Hpc Hpl3].
    destruct Hchain as (-> & n & Hn & Hnx & m & Hm & Hchain).
    rewrite Hprev in Hn. injection Hn as <-. rewrite Hc in Hm. injection Hm as <-.
    split; [done|]. eexists. split.
    { rewrite lookup_delete_ne by done. apply lookup_insert_eq. }
    cbn [next set_next]. eapply is_chain_frame_eq; [|exact Hchain].
    intros a Ha. rewrite lookup_delete_ne by congruence.
    rewrite lookup_insert_ne; congruence.
  - change ((x :: l1) ++ prev :: c :: l3) with (x :: (l1 ++ prev :: c :: l3)) in *.
    apply NoDup_cons in Hnd as [Hx _].
    destruct Hchain as (-> & n & Hn & Hchain).
    split; [done|]. exists n. split.
    + rewrite lookup_delete_ne, lookup_insert_ne; [done| |].
      * intros ->. apply Hx. apply elem_of_app. right. left.
      * intros ->. apply Hx. apply elem_of_app. right. right. left.
    + by apply IH.
Qed.

(** Where a sweep stands: the node behind its [prev] is its [cur]. *)
Lemma is_chain_at h p L prev pn c :
  is_chain h p L → prev ∈ L → h !! prev = Some pn → next pn = Some c →
  ∃ l1 l3 cn, L = l1 ++ prev :: c :: l3 ∧ h !! c = Some cn.
Proof.
  intros Hchain Hin Hprev Hnext.
  apply list_elem_of_split in Hin as (l1 & l2 & ->).
  destruct (is_chain_suffix _ _ _ _ Hchain) as (q & _ & n & Hn & Hrest).
  rewrite Hprev in Hn. injection Hn as <-. rewrite Hnext in Hrest.
  destruct l2 as [|c' l3]; [done|].
  destruct Hrest as ([= <-] & cn & Hcn & _). eauto.
Qed.

Lemma consistent_steady (st : system) :
  consistent st → steady (mk_server (reg st) (refs st) None).
Proof.
  intros (Hlock & hd & l & Hhead & Hchain & Hcnt & Href).
  exists hd, (hd :: l). done.
Qed.

Lemma steady_refs_live sv a :
  steady sv → a ∈ sv_refs sv → is_Some (heap (sv_reg sv) !! a).
Proof.
  intros (hd & L & _ & Hchain & _ & Href & _) Ha.
  eapply is_chain_live; [exact Hchain|]. by apply Href.
Qed.

(** What a sweep keeps of the rest of the state when only counts change. *)
Lemma sweep_part_count h a n c (sw : option (addr * option addr))
    (L : list addr) (lk : bool) :
  h !! a = Some n →
  match sw with
  | None => lk = false
  | Some (prev, cur) =>
    lk = true ∧ prev ∈ L ∧ ∃ pn, h !! prev = Some pn ∧ next pn = cur
  end →
  match sw with
  | None => lk = false
  | Some (prev, cur) =>
    lk = true ∧ prev ∈ L ∧
    ∃ pn, <[a := set_ref_count n c]> h !! prev = Some pn ∧ next pn = cur
  end.
Proof.
  intros Ha. destruct sw as [[prev cur]|]; [|done].
  intros (Hlk & Hin & pn & Hpn & Hnext). split; [done|]. split; [done|].
  destruct (decide (prev = a)) as [->|Hne].
  - rewrite lookup_insert_eq. rewrite Ha in Hpn. injection Hpn as <-. eauto.
  - rewrite lookup_insert_ne by done. eauto.
Qed.

Lemma is_chain_count h p L a n c :
  h !! a = Some n → is_chain h p L → is_chain (<[a := set_ref_count n c]> h) p L.
Proof.
  intros Ha. apply is_chain_frame. intros b m _ Hm.
  destruct (decide (b = a)) as [->|Hne].
  - rewrite lookup_insert_eq. rewrite Ha in Hm. injection Hm as <-. eauto.
  - rewrite lookup_insert_ne by done. eauto.
Qed.

(** An action either cannot be taken now, or it runs without a fault,
    keeps the state steady, and frees, if anything, a generation whose count
    is zero, to which no connection holds a reference, and which is not the
    head. *)
Lemma act_steady a sv :
  steady sv →
  act a sv = Blocked ∨
  ∃ sv' fr,
    act a sv = Done (sv', fr) ∧ steady sv' ∧
    ∀ g, g ∈ fr →
      unreferenced (heap (sv_reg sv)) g ∧ (g ∉ sv_refs sv) ∧
      tls_domains_cfg (sv_reg sv) ≠ Some g ∧ heap (sv_reg sv') !! g = None.
Proof.
  intros (hd & L & Hhead & Hchain & Hcnt & Href & Hsw).
  assert (HhdL : hd ∈ L).
  { destruct L as [|x L]; [done|]. destruct Hchain as ([= ->] & _). left. }
  destruct a as [|i|g d| | |]; cbn [act].
  - (* Bind *)
    right. destruct (is_chain_live _ _ _ _ Hchain HhdL) as [hn Hhn].
    unfold acquire_current. rewrite Hhead, Hhn. eexists _, _. split; [done|].
    split; [|intros g Hg; by apply elem_of_nil in Hg].
    exists hd, L. cbn [sv_reg sv_refs sv_sweep heap tls_domains_cfg tls_domains_cfg_lock].
    split; [done|]. split; [by apply is_chain_count|]. split; [|split].
    + intros a n Ha Hn. destruct (decide (a = hd)) as [->|Hne].
      * rewrite lookup_insert_eq in Hn. injection Hn as <-. cbn [ref_count set_ref_count].
        rewrite held_cons_eq. f_equal. by apply Hcnt.
      * rewrite lookup_insert_ne in Hn by done.
        rewrite held_cons_ne by done. by apply Hcnt.
    + intros a Ha. apply elem_of_cons in Ha as [->|Ha]; [done|by apply Href].
    + by apply sweep_part_count.
  - (* Unbind *)
    right. destruct (sv_refs sv !! i) as [b|] eqn:Hi.
    + assert (Hb : b ∈ L).
      { apply Href. apply list_elem_of_lookup. eauto. }
      destruct (is_chain_live _ _ _ _ Hchain Hb) as [bn Hbn].
      unfold release. rewrite Hbn. eexists _, _. split; [done|].
      split; [|intros g Hg; by apply elem_of_nil in Hg].
      exists hd, L. cbn [sv_reg sv_refs sv_sweep heap tls_domains_cfg tls_domains_cfg_lock].
      split; [done|]. split; [by apply is_chain_count|]. split; [|split].
      * intros a n Ha Hn. rewrite (held_delete a b _ _ Hi).
        destruct (decide (b = a)) as [->|Hne].
        -- rewrite lookup_insert_eq in Hn. injection Hn as <-.
           cbn [ref_count set_ref_count]. f_equal. by apply Hcnt.
        -- rewrite lookup_insert_ne in Hn by done.
           rewrite Z.sub_0_r. by apply Hcnt.
      * intros a Ha. apply Href. apply list_elem_of_lookup in Ha as [j Hj].
        apply list_elem_of_lookup. destruct (decide (j < i)%nat).
        -- exists j. by rewrite list_lookup_delete_lt in Hj.
        -- exists (S j). rewrite list_lookup_delete_ge in Hj by lia. done.
      * by apply sweep_part_count.
    + eexists _, _. split; [done|].
      split; [|intros g Hg; by apply elem_of_nil in Hg].
      exists hd, L. done.
  - (* Reload *)
    unfold publish. destruct (tls_domains_cfg_lock (sv_reg sv)) eqn:Hlock; [by left|].
    right. destruct (sv_sweep sv) as [[prev cur]|] eqn:Hsweep.
    { destruct Hsw as (Hl & _). congruence. }
    destruct g as [g|].
    2:{ eexists _, _. split; [done|]. split; [by exists hd, L|].
        intros g Hg. by apply elem_of_nil in Hg. }
    destruct (heap (sv_reg sv) !! g) as [gn|] eqn:Hg.
    { eexists _, _. split; [done|]. split; [by exists hd, L|].
      intros g' Hg'. by apply elem_of_nil in Hg'. }
    eexists _, _. split; [done|].
    split; [|intros g' Hg'; by apply elem_of_nil in Hg'].
    assert (HgL : g ∉ L).
    { intros Hin. destruct (is_chain_live _ _ _ _ Hchain Hin) as [? ?]. congruence. }
    exists g, (g :: L).
    cbn [sv_reg sv_refs sv_sweep heap tls_domains_cfg tls_domains_cfg_lock].
    split; [done|]. split; [|split; [|split]].
    + split; [done|]. eexists. rewrite lookup_insert_eq. split; [done|].
      cbn [next]. rewrite Hhead. eapply is_chain_frame_eq; [|exact Hchain].
      intros b Hb. rewrite lookup_insert_ne; [done|]. congruence.
    + intros b n Hb Hn. destruct (decide (b = g)) as [->|Hne].
      * rewrite lookup_insert_eq in Hn. injection Hn as <-. cbn [ref_count].
        symmetry. apply held_not_elem. intros Hin. by apply HgL, Href.
      * rewrite lookup_insert_ne in Hn by done.
        apply elem_of_cons in Hb as [?|Hb]; [done|]. by apply Hcnt.
    + intros b Hb. right. by apply Href.
    + done.
  - (* Enter *)
    destruct (tls_domains_cfg_lock (sv_reg sv)) eqn:Hlock; [by left|].
    right. destruct (is_chain_live _ _ _ _ Hchain HhdL) as [hn Hhn].
    rewrite Hhead, Hhn. eexists _, _. split; [done|].
    split; [|intros g Hg; by apply elem_of_nil in Hg].
    exists hd, L. cbn [sv_reg sv_refs sv_sweep heap tls_domains_cfg tls_domains_cfg_lock].
    split; [done|]. split; [done|]. split; [done|]. split; [done|]. eauto.
  - (* Iterate *)
    destruct (sv_sweep sv) as [[prev [c|]]|] eqn:Hsweep; [|by left|by left].
    right. destruct Hsw as (Hlock & HprevL & pn & Hprev & Hnext).
    destruct (is_chain_at _ _ _ _ _ _ Hchain HprevL Hprev Hnext)
      as (l1 & l3 & cn & -> & Hc).
    pose proof (is_chain_NoDup _ _ _ Hchain) as Hnd.
    unfold gc_iter. rewrite Hc. unfold atomic_get.
    destruct (ref_count cn =? 0) eqn:Hz.
    + apply Z.eqb_eq in Hz. rewrite Hprev. unfold tls_free_cfg.
      assert (Hpc : prev ≠ c).
      { intros ->. apply NoDup_app in Hnd as (_ & _ & Hnd).
        apply NoDup_cons in Hnd as [Hnin _]. apply Hnin. left. }
      assert (Hcrefs : c ∉ sv_refs sv).
      { intros Hin. pose proof (held_elem c _ Hin) as Hpos.
        rewrite <- (Hcnt c cn) in Hpos; [lia| |done].
        apply elem_of_app. right. right. left. }
      assert (Hchd : hd ≠ c).
      { intros ->. destruct l1 as [|x l1].
        - destruct Hchain as ([= ->] & _). done.
        - destruct Hchain as ([= <-] & _). apply NoDup_cons in Hnd as [Hnin _].
          apply Hnin. apply elem_of_app. right. right. left. }
      eexists _, _. split; [done|]. split.
      * exists hd, (l1 ++ prev :: l3).
        cbn [sv_reg sv_refs sv_sweep heap tls_domains_cfg tls_domains_cfg_lock].
        split; [done|]. split; [by eapply is_chain_unlink|].
        assert (Hsub : ∀ a, a ∈ l1 ++ prev :: l3 → a ∈ l1 ++ prev :: c :: l3).
        { intros a. rewrite !elem_of_app, !elem_of_cons. tauto. }
        split; [|split].
        -- intros a n Ha Hn. destruct (decide (a = c)) as [->|Hac].
           { by rewrite lookup_delete_eq in Hn. }
           rewrite lookup_delete_ne in Hn by done.
           destruct (decide (a = prev)) as [->|Hap].
           ++ rewrite lookup_insert_eq in Hn. injection Hn as <-.
              exact (Hcnt prev pn (Hsub _ Ha) Hprev).
           ++ rewrite lookup_insert_ne in Hn by done. apply Hcnt; [by apply Hsub|done].
        -- intros a Ha. pose proof (Href a Ha) as HaL.
           assert (a ≠ c) by (intros ->; done).
           revert HaL. rewrite !elem_of_app, !elem_of_cons. tauto.
        -- split; [done|]. split; [apply elem_of_app; right; left|].
           exists (set_next pn (next cn)). split; [|done].
           rewrite lookup_delete_ne by done. apply lookup_insert_eq.
      * intros g Hg. apply list_elem_of_singleton in Hg as ->.
        cbn [sv_reg heap]. split; [by exists cn|]. split; [done|].
        split; [congruence|]. apply lookup_delete_eq.
    + eexists _, _. split; [done|].
      split; [|intros g Hg; by apply elem_of_nil in Hg].
      exists hd, (l1 ++ prev :: c :: l3).
      cbn [sv_reg sv_refs sv_sweep heap tls_domains_cfg tls_domains_cfg_lock].
      split; [done|]. split; [done|]. split; [done|]. split; [done|].
      split; [done|]. split; [apply elem_of_app; right; right; left|]. eauto.
  - (* Leave *)
    destruct (sv_sweep sv) as [[prev [c|]]|] eqn:Hsweep; [by left| |by left].
    right. eexists _, _. split; [done|].
    split; [|intros g Hg; by apply elem_of_nil in Hg].
    exists hd, L. done.
Qed.

Lemma play_steady sched : ∀ sv,
  steady sv → ∃ sv', play sched sv = Done sv' ∧ steady sv'.
Proof.
  induction sched as [|a sched IH]; intros sv Hsv; simpl.
  - eauto.
  - destruct (act_steady a sv Hsv) as [-> | (sv' & fr & -> & Hsv' & _)]; by apply IH.
Qed.

(** Turns of the loop that no connection interrupts are the loop of
    [collect_garbage]. *)
Lemma play_iterations n : ∀ h hd prev cur freed h' fr rs rest,
  gc_loop n h prev cur freed = Done (h', fr) →
  ∃ prev',
    play (repeat Iterate n ++ rest) (mk_server (mk_registry h hd true) rs (Some (prev, cur)))
    = play rest (mk_server (mk_registry h' hd true) rs (Some (prev', None))).
Proof.
  induction n as [|n IH]; intros h hd prev cur freed h' fr rs rest Hloop.
  - destruct cur as [c|]; [done|]. injection Hloop as <- <-. by exists prev.
  - destruct cur as [c|].
    + cbn [gc_loop] in Hloop. cbn [repeat app play act sv_sweep sv_reg heap].
      destruct (gc_iter h prev c) as [[[[h1 p1] c1] fr1]| | |]; try done.
      cbn [sv_refs tls_domains_cfg]. by eapply IH.
    + injection Hloop as <- <-.
      destruct (IH h hd prev None freed h freed rs rest) as (prev' & Hplay).
      { by destruct n. }
      exists prev'. cbn [repeat app play act sv_sweep]. exact Hplay.
Qed.

Lemma play_collect_garbage n (s s' : registry) fr rs :
  collect_garbage n s = Done (s', fr) →
  play (Enter :: repeat Iterate n ++ [Leave]) (mk_server s rs None)
  = Done (mk_server s' rs None).
Proof.
  unfold collect_garbage. cbn [play act sv_reg].
  destruct (tls_domains_cfg_lock s); [done|].
  destruct (tls_domains_cfg s) as [hd|] eqn:Hhead; [|done].
  destruct (heap s !! hd) as [hn|]; [|done].
  destruct (gc_loop n (heap s) hd (next hn) []) as [[h' fr']| | |] eqn:Hloop; try done.
  intros [= <- <-]. cbn [sv_refs].
  destruct (play_iterations n (heap s) (Some hd) hd (next hn) [] h' fr' rs [Leave] Hloop)
    as (prev' & ->).
  reflexivity.
Qed.

End Interleaving.

(** The retired generation stays while the connection holds it, although
    the head above it has count zero; it goes with the first sweep after the
    release, and the head stays. *)
Example sweep_while_held :
  ∃ st, run [Sweep] two_generations = Done st ∧
        heap (reg st) !! 1%positive = Some (mk_cfg 10 None 1) ∧
        heap (reg st) !! 2%positive = Some (mk_cfg 20 (Some 1%positive) 0) ∧
        tls_domains_cfg (reg st) = Some 2%positive.
Proof. eexists. repeat split; reflexivity. Qed.

Example sweep_after_release :
  ∃ st, run [Release 0; Sweep] two_generations = Done st ∧
        heap (reg st) !! 1%positive = None ∧
        heap (reg st) !! 2%positive = Some (mk_cfg 20 None 0) ∧
        tls_domains_cfg (reg st) = Some 2%positive ∧
        refs st = [].
Proof. eexists. repeat split; reflexivity. Qed.

(** A reload in between: the old head is retired with no reference and is
    freed, the generation below it is still held and stays linked. *)
Example sweep_after_reload :
  ∃ st, run [Publish (Some 3%positive) 30; Sweep] two_generations = Done st ∧
        heap (reg st) !! 3%positive = Some (mk_cfg 30 (Some 1%positive) 0) ∧
        heap (reg st) !! 2%positive = None ∧
        heap (reg st) !! 1%positive = Some (mk_cfg 10 None 1) ∧
        tls_domains_cfg (reg st) = Some 3%positive.
Proof. eexists. repeat split; reflexivity. Qed.

Lemma two_generations_consistent : consistent two_generations.
Proof.
  split; [reflexivity|]. exists 2%positive, [1%positive].
  split; [reflexivity|]. split.
  - split; [reflexivity|]. eexists. split; [reflexivity|].
    split; [reflexivity|]. eexists. split; [reflexivity|]. reflexivity.
  - split.
    + intros a n Ha Hn. apply elem_of_cons in Ha as [->|Ha].
      * vm_compute in Hn. injection Hn as <-. reflexivity.
      * apply list_elem_of_singleton in Ha as ->.
        vm_compute in Hn. injection Hn as <-. reflexivity.
    + intros a Ha. by right.
Defined.

(** A release that falls inside a sweep: before the loop reaches the
    generation its count is seen as zero and the generation is freed; after
    it, the generation stays for the next sweep. *)
Example release_during_sweep :
  ∃ sv1 sv2,
    play [Enter; Unbind 0; Iterate; Leave]
      (mk_server (reg two_generations) (refs two_generations) None) = Done sv1 ∧
    heap (sv_reg sv1) !! 1%positive = None ∧
    play [Enter; Iterate; Unbind 0; Leave]
      (mk_server (reg two_generations) (refs two_generations) None) = Done sv2 ∧
    heap (sv_reg sv2) !! 1%positive = Some (mk_cfg 10 None 0) ∧
    sv_refs sv1 = [] ∧ sv_refs sv2 = [].
Proof. eexists _, _. repeat split; reflexivity. Qed.

(** C1.  From any consistent server state:
    - for any sequence of acquire, release, publish and sweep operations, no
      operation faults, every reference a connection holds points to a live
      generation, and a sweep run in the state reached frees only generations
      whose reference count is zero there (none of which a connection holds
      a reference to); whatever was live before that sweep and is not live
      after it is one of them;
    - the same holds when acquire and release fall between the iterations
      of a sweep: for any schedule of actions nothing faults, held references
      stay live, and whatever the next action frees has count zero and is not
      referenced. *)
Theorem no_free_while_referenced
    (st0 : system) (ops : list op) (sched : list action) :
  consistent st0 →
  (∃ st,
     run ops st0 = Done st ∧
     (∀ a, a ∈ refs st → is_Some (heap (reg st) !! a)) ∧
     ∃ r freed,
       collect_garbage (size (heap (reg st))) (reg st) = Done (r, freed) ∧
       (∀ a, a ∈ freed →
          ∃ n, heap (reg st) !! a = Some n ∧ ref_count n = 0 ∧ a ∉ refs st) ∧
       (∀ a n, heap (reg st) !! a = Some n → heap r !! a = None →
          a ∈ freed ∧ ref_count n = 0)) ∧
  (∃ sv,
     play sched (mk_server (reg st0) (refs st0) None) = Done sv ∧
     (∀ a, a ∈ sv_refs sv → is_Some (heap (sv_reg sv) !! a)) ∧
     (∀ a sv' fr, act a sv = Done (sv', fr) →
        ∀ g, g ∈ fr →
          (∃ n, heap (sv_reg sv) !! g = Some n ∧ ref_count n = 0) ∧
          (g ∉ sv_refs sv) ∧ heap (sv_reg sv') !! g = None)).
Proof.
  intros Hst0. split.
  - destruct (run_consistent ops st0 Hst0) as (st & Hrun & Hst).
    exists st. split; [done|].
    destruct Hst as (Hlock & hd & l & Hhead & Hchain & Hcnt & Href).
    split.
    { intros a Ha. eapply is_chain_live; [exact Hchain|]. by apply Href. }
    assert (Hfuel : (length l ≤ size (heap (reg st)))%nat).
    { pose proof (is_chain_length _ _ _ Hchain) as Hlen. simpl in Hlen. lia. }
    destruct (collect_garbage_spec _ hd l _ Hlock Hhead Hchain Hfuel)
      as (h' & Hgc & Hch & Hframe & Hpay & Hfree).
    eexists _, _. split; [exact Hgc|]. cbn [heap]. split.
    + intros a Ha. pose proof Ha as Hin.
      apply list_elem_of_filter in Hin as [(n & Hn & Hz) Hal].
      exists n. split; [done|]. split; [done|].
      intros Hr. pose proof (held_elem a _ Hr) as Hpos.
      rewrite <- (Hcnt a n) in Hpos; [lia|by right|done].
    + intros a n Hn Hnone.
      destruct (decide (a ∈ filter (unreferenced (heap (reg st))) l)) as [Hin|Hnin].
      * split; [done|]. apply list_elem_of_filter in Hin as [(m & Hm & Hz) _].
        congruence.
      * specialize (Hpay a Hnin). rewrite Hn, Hnone in Hpay. done.
  - destruct (play_steady sched _ (consistent_steady st0 Hst0)) as (sv & Hplay & Hsv).
    exists sv. split; [done|]. split; [intros a; by apply steady_refs_live|].
    intros a sv' fr Hact g Hg.
    destruct (act_steady a sv Hsv) as [Hb | (sv1 & fr1 & Hact1 & _ & Hfreed)];
      [congruence|].
    rewrite Hact in Hact1. injection Hact1 as <- <-.
    destruct (Hfreed g Hg) as (Hu & Hr & _ & Hgone). done.
Qed.

Lemma no_free_while_referenced_witness :
  (∃ st,
     run [Acquire; Sweep; Release 0; Publish (Some 3%positive) 30; Sweep] two_generations
       = Done st ∧
     (∀ a, a ∈ refs st → is_Some (heap (reg st) !! a)) ∧
     ∃ r freed,
       collect_garbage (size (heap (reg st))) (reg st) = Done (r, freed) ∧
       (∀ a, a ∈ freed →
          ∃ n, heap (reg st) !! a = Some n ∧ ref_count n = 0 ∧ a ∉ refs st) ∧
       (∀ a n, heap (reg st) !! a = Some n → heap r !! a = None →
          a ∈ freed ∧ ref_count n = 0)) ∧
  (∃ sv,
     play [Enter; Bind; Unbind 1; Iterate; Reload (Some 3%positive) 30; Leave]
       (mk_server (reg two_generations) (refs two_generations) None) = Done sv ∧
     (∀ a, a ∈ sv_refs sv → is_Some (heap (sv_reg sv) !! a)) ∧
     (∀ a sv' fr, act a sv = Done (sv', fr) →
        ∀ g, g ∈ fr →
          (∃ n, heap (sv_reg sv) !! g = Some n ∧ ref_count n = 0) ∧
          (g ∉ sv_refs sv) ∧ heap (sv_reg sv') !! g = None)).
Proof.
  apply (no_free_while_referenced two_generations).
  exact two_generations_consistent.
Defined.

Lemma is_chain_head h cur l : is_chain h cur l → cur = head l.
Proof. destruct l as [|a l]; [done|]. by intros [-> _]. Qed.

Lemma head_filter_kept {A} (P : A → Prop) `{!∀ x, Decision (P x)} (l : list A) :
  NoDup l →
  head (filter P l) = head l ↔ ∀ a, head l = Some a → P a.
Proof.
  destruct l as [|a l]; [done|]. intros Hnd. apply NoDup_cons in Hnd as [Hal _].
  cbn [head hd_error]. destruct (decide (P a)) as [Hp|Hp].
  - rewrite filter_cons_True by done. split; [|done]. by intros _ b [= <-].
  - rewrite filter_cons_False by done. split.
    + intros Hh. apply head_Some_elem_of in Hh.
      apply list_elem_of_filter in Hh as [_ Hin]. done.
    + intros Hall. destruct Hp. by apply Hall.
Qed.

Lemma set_next_same (n : tls_domains_cfg_t) (x : option addr) :
  set_next n x = n ↔ x = next n.
Proof.
  destruct n as [d nx c]. unfold set_next. cbn [domains next ref_count].
  split; [by intros [= ->]|by intros ->].
Qed.

(** C2.  On every chain, whatever the head's reference count is (zero
    included), [collect_garbage] returns with the head pointer unchanged and
    the head generation still allocated, not among the freed ones, with the
    same configuration and the same count, and still first in the chain.  The
    head's count is not even read: started with any other value [c] in it,
    the sweep frees the same generations and leaves the same memory.  The
    head's link is read, it is where the walk starts, and it is the one field
    of the head that the sweep may write: afterwards it names the first
    retired generation that is still referenced ([NULL] when there is none),
    so that the head node is as it was, field by field, exactly when there is
    no generation right behind it or that generation is still referenced. *)
Theorem sweep_keeps_head (s : registry) (hd : addr) (l : list addr) (fuel : nat) :
  tls_domains_cfg_lock s = false →
  tls_domains_cfg s = Some hd →
  is_chain (heap s) (Some hd) (hd :: l) →
  (length l ≤ fuel)%nat →
  ∃ s' freed,
    collect_garbage fuel s = Done (s', freed) ∧
    tls_domains_cfg s' = Some hd ∧
    (hd ∉ freed) ∧
    is_Some (heap s' !! hd) ∧
    payload <$> (heap s' !! hd) = payload <$> (heap s !! hd) ∧
    (∃ l', is_chain (heap s') (Some hd) (hd :: l')) ∧
    (∀ c, collect_garbage fuel (with_count hd c s) = Done (with_count hd c s', freed)) ∧
    (∃ hn, heap s !! hd = Some hn ∧ next hn = head l ∧
           heap s' !! hd
           = Some (set_next hn (head (filter (referenced (heap s)) l)))) ∧
    (heap s' !! hd = heap s !! hd ↔ ∀ a, head l = Some a → referenced (heap s) a).
Proof.
  intros Hlock Hhead Hchain Hfuel.
  destruct (collect_garbage_spec s hd l fuel Hlock Hhead Hchain Hfuel)
    as (h' & Hgc & Hch & Hframe & Hpay & Hfree).
  pose proof (is_chain_NoDup _ _ _ Hchain) as Hnd.
  apply NoDup_cons in Hnd as [Hhl Hndl].
  assert (Hnf : hd ∉ filter (unreferenced (heap s)) l).
  { intros Hin. by apply list_elem_of_filter in Hin as [_ ?]. }
  destruct Hchain as (_ & hn & Hhn & Hchain).
  assert (Hnode : h' !! hd
                  = Some (set_next hn (head (filter (referenced (heap s)) l)))).
  { destruct Hch as (_ & n' & Hn' & Hrest).
    apply is_chain_head in Hrest. specialize (Hpay hd Hnf).
    rewrite Hn', Hhn in Hpay. injection Hpay as Hd Hc.
    rewrite Hn'. f_equal. destruct n' as [d nx c].
    cbn [domains next ref_count] in *. unfold set_next. by rewrite Hd, Hc, Hrest. }
  eexists _, _. split; [exact Hgc|]. cbn [heap tls_domains_cfg].
  split; [done|]. split; [done|]. split; [by rewrite Hnode|].
  split; [by apply Hpay|]. split; [eauto|]. split.
  { intros c.
    unfold collect_garbage in Hgc |- *. cbn [with_count heap tls_domains_cfg tls_domains_cfg_lock].
    rewrite Hlock, Hhead in Hgc |- *. rewrite Hhn in Hgc.
    unfold set_count_at at 1. rewrite lookup_alter_eq, Hhn. cbn [fmap option_fmap option_map set_ref_count next].
    rewrite (gc_loop_count_unread hd c l fuel (heap s) hd hn (next hn) [] Hhn Hchain Hhl Hhl).
    destruct (gc_loop fuel (heap s) hd (next hn) []) as [[h'' fr]| | |]; try discriminate.
    injection Hgc as <- <-. reflexivity. }
  pose proof (is_chain_head _ _ _ Hchain) as Hnext.
  split; [by exists hn|].
  rewrite Hnode, Hhn, <- (head_filter_kept (referenced (heap s)) l Hndl), <- Hnext.
  rewrite <- set_next_same. split; [by intros [= ->]|by intros ->].
Qed.

Lemma sweep_keeps_head_witness :
  ∃ s' freed,
    collect_garbage 1 (reg two_generations) = Done (s', freed) ∧
    tls_domains_cfg s' = Some 2%positive ∧
    (2%positive ∉ freed) ∧
    is_Some (heap s' !! 2%positive) ∧
    payload <$> (heap s' !! 2%positive)
      = payload <$> (heap (reg two_generations) !! 2%positive) ∧
    (∃ l', is_chain (heap s') (Some 2%positive) (2%positive :: l')) ∧
    (∀ c, collect_garbage 1 (with_count 2%positive c (reg two_generations))
          = Done (with_count 2%positive c s', freed)) ∧
    (∃ hn, heap (reg two_generations) !! 2%positive = Some hn ∧
           next hn = head [1%positive] ∧
           heap s' !! 2%positive
           = Some (set_next hn
                     (head (filter (referenced (heap (reg two_generations)))
                                   [1%positive])))) ∧
    (heap s' !! 2%positive = heap (reg two_generations) !! 2%positive
     ↔ ∀ a, head [1%positive] = Some a → referenced (heap (reg two_generations)) a).
Proof.
  apply (sweep_keeps_head (reg two_generations) 2%positive [1%positive] 1).
  - reflexivity.
  - reflexivity.
  - split; [reflexivity|]. eexists. split; [reflexivity|].
    split; [reflexivity|]. eexists. split; [reflexivity|]. reflexivity.
  - simpl. lia.
Defined.

(** C2, as it is worded: the head node unchanged on every chain.  With the
    head [2 -> 1] and generation 1 at count zero, the sweep frees 1 and
    stores [NULL] in the head's link, which named 1 before: the head node is
    not as it was. *)
Lemma sweep_rewrites_head_link : ¬ head_untouched_as_specified.
Proof.
  intros H.
  destruct (H retired_unreferenced 2%positive [1%positive] 1%nat
              (mk_registry (<[2%positive := mk_cfg 20 None 1]> ∅)
                           (Some 2%positive) false)
              [1%positive] eq_refl eq_refl) as [_ Hnode].
  - split; [reflexivity|]. eexists. split; [reflexivity|].
    split; [reflexivity|]. eexists. split; [reflexivity|]. reflexivity.
  - vm_compute. reflexivity.
  - vm_compute in Hnode. discriminate.
Qed.

(** C3.  On a chain [hd :: l], one call of [collect_garbage] makes one pass
    over [l] ([length l] iterations are enough and fewer are not), hands to
    [tls_free_cfg] exactly the nodes of [l] whose count is zero, in chain
    order, and leaves the chain [hd] followed by the nodes of [l] whose count
    is not zero, in their old order, each with its configuration and count
    unchanged; memory outside the chain is untouched.  In particular, when a
    new generation [g2] is published on top of the head [hd] and the sweep
    runs, [g2] is the head, and [hd] is freed and gone from the chain if its
    count was zero, and otherwise is the node that [g2] links to. *)
Theorem sweep_frees_exactly_unreferenced
    (s : registry) (hd : addr) (l : list addr) :
  tls_domains_cfg_lock s = false →
  tls_domains_cfg s = Some hd →
  is_chain (heap s) (Some hd) (hd :: l) →
  (∀ fuel, (length l ≤ fuel)%nat →
     ∃ s',
       collect_garbage fuel s = Done (s', filter (unreferenced (heap s)) l) ∧
       tls_domains_cfg s' = Some hd ∧
       tls_domains_cfg_lock s' = false ∧
       is_chain (heap s') (Some hd) (hd :: filter (referenced (heap s)) l) ∧
       filter (referenced (heap s)) l `sublist_of` l ∧
       (∀ a, a ∈ l → unreferenced (heap s) a → heap s' !! a = None) ∧
       (∀ a, a ∈ l → referenced (heap s) a →
          payload <$> (heap s' !! a) = payload <$> (heap s !! a)) ∧
       (∀ a, a ∉ hd :: l → heap s' !! a = heap s !! a)) ∧
  (∀ fuel, (fuel < length l)%nat → collect_garbage fuel s = OutOfFuel) ∧
  (∀ g2 d fuel, heap s !! g2 = None → (S (length l) ≤ fuel)%nat →
     ∃ s1 s2 freed l',
       publish (Some g2) d s = Done s1 ∧
       collect_garbage fuel s1 = Done (s2, freed) ∧
       tls_domains_cfg s2 = Some g2 ∧
       is_chain (heap s2) (Some g2) (g2 :: l') ∧
       (unreferenced (heap s) hd →
          hd ∈ freed ∧ heap s2 !! hd = None ∧ hd ∉ l') ∧
       (referenced (heap s) hd →
          (hd ∉ freed) ∧ (∃ l'', l' = hd :: l'') ∧
          payload <$> (heap s2 !! hd) = payload <$> (heap s !! hd))).
Proof.
  intros Hlock Hhead Hchain. split; [|split].
  - intros fuel Hfuel.
    destruct (collect_garbage_spec s hd l fuel Hlock Hhead Hchain Hfuel)
      as (h' & Hgc & Hch & Hframe & Hpay & Hfree).
    eexists. split; [exact Hgc|]. cbn [heap tls_domains_cfg tls_domains_cfg_lock].
    split; [done|]. split; [done|]. split; [done|].
    split; [apply sublist_filter|]. split; [|split; [|done]].
    + intros a Ha Hu. apply Hfree. by apply list_elem_of_filter.
    + intros a Ha Hr. apply Hpay. intros Hin.
      apply list_elem_of_filter in Hin as [Hu _]. by apply Hr.
  - intros fuel Hfuel.
    pose proof (is_chain_NoDup _ _ _ Hchain) as Hnd.
    apply NoDup_cons in Hnd as [Hhl _].
    destruct Hchain as (_ & hn & Hhn & Hchain).
    unfold collect_garbage. rewrite Hlock, Hhead, Hhn.
    by rewrite (gc_loop_linear l fuel (heap s) hd hn (next hn) [] Hfuel Hhn Hchain Hhl).
  - intros g2 d fuel Hfresh Hfuel.
    set (h1 := <[g2 := mk_cfg d (Some hd) 0]> (heap s)).
    set (s1 := mk_registry h1 (Some g2) false).
    assert (Hg2 : g2 ∉ hd :: l).
    { intros Hin. destruct (is_chain_live _ _ _ _ Hchain Hin) as [? ?]. congruence. }
    assert (Hsame : ∀ a, a ∈ hd :: l → h1 !! a = heap s !! a).
    { intros a Ha. unfold h1. rewrite lookup_insert_ne; [done|]. congruence. }
    assert (Hch1 : is_chain h1 (Some g2) (g2 :: hd :: l)).
    { split; [done|]. eexists. unfold h1 at 1. rewrite lookup_insert_eq.
      split; [done|]. cbn [next]. by eapply is_chain_frame_eq; [|exact Hchain]. }
    destruct (collect_garbage_spec s1 g2 (hd :: l) fuel eq_refl eq_refl Hch1 Hfuel)
      as (h2 & Hgc & Hch2 & Hframe & Hpay & Hfree).
    cbn [heap s1] in Hgc, Hch2, Hframe, Hpay, Hfree.
    assert (Hun : unreferenced h1 hd ↔ unreferenced (heap s) hd).
    { unfold unreferenced. rewrite Hsame; [done|left]. }
    exists s1, (mk_registry h2 (Some g2) false),
      (filter (unreferenced h1) (hd :: l)), (filter (referenced h1) (hd :: l)).
    split. { unfold publish. by rewrite Hlock, Hfresh, Hhead. }
    split; [exact Hgc|]. cbn [heap tls_domains_cfg].
    split; [done|]. split; [done|]. split.
    + intros Hu. apply Hun in Hu.
      assert (Hin : hd ∈ filter (unreferenced h1) (hd :: l)).
      { apply list_elem_of_filter. split; [done|left]. }
      split; [done|]. split; [by apply Hfree|].
      intros Hin'. apply list_elem_of_filter in Hin' as [Hr _]. by apply Hr.
    + intros Hr. assert (Hr1 : referenced h1 hd).
      { unfold referenced. by rewrite Hun. }
      assert (Hnin : hd ∉ filter (unreferenced h1) (hd :: l)).
      { intros Hin. apply list_elem_of_filter in Hin as [Hu _]. by apply Hr1. }
      split; [done|]. split.
      * rewrite filter_cons_True by done. eauto.
      * rewrite Hpay by done. rewrite Hsame; [done|left].
Qed.

Lemma retired_unreferenced_chain :
  is_chain (heap retired_unreferenced) (Some 2%positive) [2%positive; 1%positive].
Proof.
  split; [reflexivity|]. eexists. split; [reflexivity|].
  split; [reflexivity|]. eexists. split; [reflexivity|]. reflexivity.
Defined.

Lemma sweep_frees_exactly_unreferenced_witness :
  (∃ s',
     collect_garbage 1 retired_unreferenced = Done (s', [1%positive]) ∧
     tls_domains_cfg s' = Some 2%positive ∧
     is_chain (heap s') (Some 2%positive) [2%positive] ∧
     heap s' !! 1%positive = None) ∧
  collect_garbage 0 retired_unreferenced = OutOfFuel ∧
  (∃ s1 s2 freed l',
     publish (Some 3%positive) 30 retired_unreferenced = Done s1 ∧
     collect_garbage 2 s1 = Done (s2, freed) ∧
     tls_domains_cfg s2 = Some 3%positive ∧
     is_chain (heap s2) (Some 3%positive) (3%positive :: l') ∧
     (2%positive ∉ freed) ∧ ∃ l'', l' = 2%positive :: l'').
Proof.
  destruct (sweep_frees_exactly_unreferenced retired_unreferenced 2%positive
              [1%positive] eq_refl eq_refl retired_unreferenced_chain)
    as (H1 & H2 & H3).
  split; [|split].
  - destruct (H1 1%nat (le_n 1)) as (s' & Hgc & Hhd & _ & Hch & _ & Hfree & _).
    exists s'. split; [exact Hgc|]. split; [exact Hhd|]. split; [exact Hch|].
    apply Hfree; [left|]. eexists. split; reflexivity.
  - apply H2. simpl. lia.
  - destruct (H3 3%positive 30%nat 2%nat eq_refl (le_n 2))
      as (s1 & s2 & freed & l' & Hp & Hgc & Hhd & Hch & _ & Hkept).
    assert (Href : referenced (heap retired_unreferenced) 2%positive).
    { intros (n & Hn & Hz). vm_compute in Hn. injection Hn as <-. discriminate. }
    destruct (Hkept Href) as (Hnf & Hl' & _).
    exists s1, s2, freed, l'. done.
Defined.

End RegistryTheory.

Module CStringTheory.
Import CString.

Lemma byte_range c : 0 ≤ byte c < 256.
Proof.
  unfold byte. pose proof (N_ascii_bounded c). lia.
Qed.

Lemma byte_zero c : byte c = 0 ↔ c = NUL.
Proof.
  unfold byte, NUL. split.
  - intros H. rewrite <- (ascii_N_embedding c).
    assert (N_of_ascii c = 0%N) as -> by lia. reflexivity.
  - intros ->. reflexivity.
Qed.

Lemma eqb_NUL c : Ascii.eqb c NUL = (byte c =? 0).
Proof.
  destruct (Ascii.eqb_spec c NUL) as [->|Hne]; symmetry.
  - reflexivity.
  - apply Z.eqb_neq. by rewrite byte_zero.
Qed.

Lemma tolower_zero x : 0 ≤ x → tolower x = 0 ↔ x = 0.
Proof.
  intros Hx. unfold tolower.
  destruct (65 <=? x) eqn:H1, (x <=? 90) eqn:H2; simpl; lia.
Qed.

Lemma lowered_nil : lowered [] = [].
Proof. reflexivity. Qed.

Lemma lowered_cons c r :
  lowered (c :: r) = if byte c =? 0 then [] else tolower (byte c) :: lowered r.
Proof.
  unfold lowered. simpl. rewrite eqb_NUL. by destruct (byte c =? 0).
Qed.

(** [strcasecmp] answers 0 exactly on strings that are equal ignoring case. *)
Lemma strcasecmp_zero a : ∀ b, strcasecmp a b = 0 ↔ lowered a = lowered b.
Proof.
  induction a as [|c1 r1 IH]; intros [|c2 r2]; simpl strcasecmp; simpl deref.
  - done.
  - rewrite lowered_nil, lowered_cons. pose proof (byte_range c2) as Hb.
    pose proof (tolower_zero (byte c2) (proj1 Hb)) as Ht.
    change (tolower 0) with 0.
    destruct (0 - tolower (byte c2) =? 0) eqn:E.
    + apply Z.eqb_eq in E.
      assert (byte c2 = 0) as -> by lia. done.
    + apply Z.eqb_neq in E.
      destruct (byte c2 =? 0) eqn:E2; [apply Z.eqb_eq in E2; lia|].
      split; [lia|done].
  - rewrite lowered_nil, lowered_cons. pose proof (byte_range c1) as Hb.
    pose proof (tolower_zero (byte c1) (proj1 Hb)) as Ht.
    change (tolower 0) with 0.
    destruct (tolower (byte c1) - 0 =? 0) eqn:E.
    + apply Z.eqb_eq in E. assert (byte c1 = 0) as -> by lia. done.
    + apply Z.eqb_neq in E.
      destruct (byte c1 =? 0) eqn:E2; [apply Z.eqb_eq in E2; lia|].
      split; [lia|done].
  - rewrite !lowered_cons.
    pose proof (byte_range c1) as Hb1. pose proof (byte_range c2) as Hb2.
    pose proof (tolower_zero (byte c1) (proj1 Hb1)) as Ht1.
    pose proof (tolower_zero (byte c2) (proj1 Hb2)) as Ht2.
    destruct (tolower (byte c1) - tolower (byte c2) =? 0) eqn:E.
    + apply Z.eqb_eq in E.
      destruct (byte c1 =? 0) eqn:E1.
      * apply Z.eqb_eq in E1. assert (byte c2 = 0) as -> by lia. done.
      * apply Z.eqb_neq in E1.
        destruct (byte c2 =? 0) eqn:E2; [apply Z.eqb_eq in E2; lia|].
        rewrite IH. split; [intros ->; f_equal; lia|by intros [= _ ?]].
    + apply Z.eqb_neq in E.
      destruct (Z.eqb_spec (byte c1) 0) as [E1|E1],
               (Z.eqb_spec (byte c2) 0) as [E2|E2].
      * lia.
      * split; [lia|done].
      * split; [lia|done].
      * split; [lia|]. intros [= ? _]. lia.
Qed.

Lemma c_str_take s : take (Z.to_nat (strlen s)) s = c_str s.
Proof.
  unfold strlen. rewrite Nat2Z.id.
  induction s as [|c r IH]; simpl; [done|].
  destruct (Ascii.eqb c NUL); simpl; [done|]. by rewrite IH.
Qed.

End CStringTheory.

Module KeylogTheory.
Import CString CStringTheory Keylog.

Lemma vfilter_loop_bit filters line :
  vfilter_loop filters line = 0 ∨ vfilter_loop filters line = 1.
Proof.
  induction filters as [|f rest IH]; simpl; [by left|].
  destruct (strcasecmp f line =? 0); [by right|done].
Qed.

Lemma vfilter_loop_spec filters line :
  vfilter_loop filters line = 1
  ↔ ∃ f, f ∈ filters ∧ lowered f = lowered line.
Proof.
  induction filters as [|f rest IH]; simpl.
  - split; [done|]. intros (f & Hf & _). by apply elem_of_nil in Hf.
  - destruct (strcasecmp f line =? 0) eqn:E.
    + apply Z.eqb_eq, strcasecmp_zero in E. split; [|done].
      intros _. exists f. split; [left|done].
    + apply Z.eqb_neq in E. rewrite strcasecmp_zero in E. rewrite IH. split.
      * intros (f' & Hf' & Heq). exists f'. split; [by right|done].
      * intros (f' & Hf' & Heq). apply elem_of_cons in Hf' as [->|Hf']; [done|eauto].
Qed.

(** C4, as the code has it.  [ksr_tls_keylog_vfilter_match] answers 1 when
    the line is, ignoring the case of ASCII letters, exactly one of the six
    strings of [ksr_tls_keylog_vfilters] (the NSS key-log labels in
    upper case with underscores, each followed by one space), and 0 for any
    other line: the empty line, a label without the space, a label spelled
    with hyphens, and a line that goes on after the space. *)
Theorem vfilter_match_exact (line : list ascii) :
  (ksr_tls_keylog_vfilter_match line = 1
     ↔ ∃ f, f ∈ ksr_tls_keylog_vfilters ∧ lowered f = lowered line) ∧
  (ksr_tls_keylog_vfilter_match line = 0
     ↔ ¬ ∃ f, f ∈ ksr_tls_keylog_vfilters ∧ lowered f = lowered line) ∧
  ksr_tls_keylog_vfilter_match (lit "") = 0 ∧
  ksr_tls_keylog_vfilter_match (lit "CLIENT_RANDOM ") = 1 ∧
  ksr_tls_keylog_vfilter_match (lit "client_random ") = 1 ∧
  ksr_tls_keylog_vfilter_match (lit "Exporter_Secret ") = 1 ∧
  ksr_tls_keylog_vfilter_match (lit "CLIENT_RANDOM") = 0 ∧
  ksr_tls_keylog_vfilter_match (lit "client-random") = 0 ∧
  ksr_tls_keylog_vfilter_match (lit "CLIENT_RANDOM 0102") = 0.
Proof.
  unfold ksr_tls_keylog_vfilter_match.
  pose proof (vfilter_loop_spec ksr_tls_keylog_vfilters line) as H1.
  split; [done|]. split.
  - rewrite <- H1.
    destruct (vfilter_loop_bit ksr_tls_keylog_vfilters line) as [-> | ->]; split; done.
  - repeat split; reflexivity.
Qed.

(** C4, as it is worded: the six labels spelled in lower case with hyphens
    and no space.  The code does not forward the line [client-random], which
    that wording lets through. *)
Lemma vfilter_match_not_as_specified :
  ¬ (∀ line, ksr_tls_keylog_vfilter_match line = 1
             ↔ should_forward_as_specified line = true).
Proof.
  intros H. specialize (H (lit "client-random")).
  assert (Hs : should_forward_as_specified (lit "client-random") = true)
    by (vm_compute; reflexivity).
  apply H in Hs. vm_compute in Hs. discriminate.
Qed.

(** *** The file sink *)

Lemma set_file_lock_same g l :
  ksr_tls_keylog_file_lock g = l → set_file_lock g l = g.
Proof. intros <-. by destruct g. Qed.

Lemma set_peer_dst_same g d :
  ksr_tls_keylog_peer_dst g = d → set_peer_dst g d = g.
Proof. intros <-. by destruct g. Qed.

(** C5.  With [ksr_tls_keylog_file_lock] unset, [ksr_tls_keylog_file_write]
    returns 0 for every line, whatever [fopen] would answer: the variables
    and the files are as before and no call leaves the module. *)
Theorem file_write_uninitialised
    (fopen_ok : bool) (line : list ascii) (g : globals)
    (fs : gmap (list ascii) (list ascii)) :
  ksr_tls_keylog_file_lock g = None →
  ksr_tls_keylog_file_write fopen_ok line g fs = Done (0, g, fs, []).
Proof.
  intros Hlock. unfold ksr_tls_keylog_file_write. by rewrite Hlock.
Qed.

Lemma file_write_uninitialised_witness :
  ksr_tls_keylog_file_write true (lit "CLIENT_RANDOM 0102") globals_at_start ∅
  = Done (0, globals_at_start, ∅, []).
Proof.
  apply (file_write_uninitialised true (lit "CLIENT_RANDOM 0102") globals_at_start ∅).
  reflexivity.
Defined.

(** C6.  With the lock set up and free and the path set, a call takes the
    lock, opens the file for appending, and
    - when the file opens: prints the line and a newline (the file now ends
      with them), closes the file, releases the lock and returns 0;
    - when it does not: logs, releases the lock and returns -1.
    Either way the variables are as before the call: the lock is free again
    and still set, so the next call opens the file again, whatever happened
    to this one. *)
Theorem file_write_initialised
    (line : list ascii) (g : globals) (s : list ascii)
    (fs : gmap (list ascii) (list ascii)) :
  ksr_tls_keylog_file_lock g = Some (mk_lock true false) →
  str_s (ksr_tls_keylog_file g) = Some s →
  ksr_tls_keylog_file_write true line g fs
    = Done (0, g,
            <[c_str s := default [] (fs !! c_str s) ++ c_str line ++ lit (String "010" EmptyString)]> fs,
            [ev_lock_get; ev_fopen (c_str s) (lit "a") true;
             ev_fprintf (c_str line ++ lit (String "010" EmptyString));
             ev_fclose; ev_lock_release]) ∧
  ksr_tls_keylog_file_write false line g fs
    = Done (-1, g, fs,
            [ev_lock_get; ev_fopen (c_str s) (lit "a") false; ev_log; ev_lock_release]) ∧
  (∀ ok1 ok2 line2 r1 g1 fs1 ev1,
     ksr_tls_keylog_file_write ok1 line g fs = Done (r1, g1, fs1, ev1) →
     ksr_tls_keylog_file_lock g1 = Some (mk_lock true false) ∧
     ∃ r2 g2 fs2 ev2,
       ksr_tls_keylog_file_write ok2 line2 g1 fs1 = Done (r2, g2, fs2, ev2) ∧
       List.filter is_fopen ev2 = [ev_fopen (c_str s) (lit "a") ok2] ∧
       r2 = (if ok2 then 0 else -1)).
Proof.
  intros Hlock Hpath.
  assert (Hok : ∀ ok l (fs' : gmap (list ascii) (list ascii)),
    ksr_tls_keylog_file_write ok l g fs'
    = if ok then
        Done (0, g,
              <[c_str s := default [] (fs' !! c_str s) ++ c_str l ++ lit (String "010" EmptyString)]> fs',
              [ev_lock_get; ev_fopen (c_str s) (lit "a") true;
               ev_fprintf (c_str l ++ lit (String "010" EmptyString));
               ev_fclose; ev_lock_release])
      else
        Done (-1, g, fs',
              [ev_lock_get; ev_fopen (c_str s) (lit "a") false; ev_log; ev_lock_release])).
  { intros ok l fs'. unfold ksr_tls_keylog_file_write.
    rewrite Hlock, Hpath. unfold lock_get, lock_release. simpl.
    rewrite (set_file_lock_same g _ Hlock). by destruct ok. }
  split; [apply (Hok true)|]. split; [apply (Hok false)|].
  intros ok1 ok2 line2 r1 g1 fs1 ev1 H1. rewrite Hok in H1.
  assert (g1 = g) as -> by (destruct ok1; congruence).
  split; [done|]. rewrite Hok. destruct ok2; eexists _, _, _, _; done.
Qed.

Lemma file_write_initialised_witness :
  ksr_tls_keylog_file_write true (lit "CLIENT_RANDOM 0102") globals_file_ready ∅
    = Done (0, globals_file_ready,
            <[c_str (lit "/tmp/keys.log") :=
                default [] ((∅ : gmap (list ascii) (list ascii)) !! c_str (lit "/tmp/keys.log"))
                ++ c_str (lit "CLIENT_RANDOM 0102") ++ lit (String "010" EmptyString)]> ∅,
            [ev_lock_get; ev_fopen (c_str (lit "/tmp/keys.log")) (lit "a") true;
             ev_fprintf (c_str (lit "CLIENT_RANDOM 0102") ++ lit (String "010" EmptyString));
             ev_fclose; ev_lock_release]) ∧
  ksr_tls_keylog_file_write false (lit "CLIENT_RANDOM 0102") globals_file_ready ∅
    = Done (-1, globals_file_ready, ∅,
            [ev_lock_get; ev_fopen (c_str (lit "/tmp/keys.log")) (lit "a") false;
             ev_log; ev_lock_release]) ∧
  (∀ ok1 ok2 line2 r1 g1 fs1 ev1,
     ksr_tls_keylog_file_write ok1 (lit "CLIENT_RANDOM 0102") globals_file_ready ∅
       = Done (r1, g1, fs1, ev1) →
     ksr_tls_keylog_file_lock g1 = Some (mk_lock true false) ∧
     ∃ r2 g2 fs2 ev2,
       ksr_tls_keylog_file_write ok2 line2 g1 fs1 = Done (r2, g2, fs2, ev2) ∧
       List.filter is_fopen ev2 = [ev_fopen (c_str (lit "/tmp/keys.log")) (lit "a") ok2] ∧
       r2 = (if ok2 then 0 else -1)).
Proof.
  apply (file_write_initialised (lit "CLIENT_RANDOM 0102") globals_file_ready
           (lit "/tmp/keys.log") ∅); reflexivity.
Defined.

Section FileInit.
Variables INIT FILE : Z.

#[local] Abbreviation file_init := (ksr_tls_keylog_file_init INIT FILE).
#[local] Abbreviation init_run := (file_init_run INIT FILE).

#[local] Abbreviation lock_implies_enabled := (Keylog.lock_implies_enabled INIT FILE).

Lemma file_init_enabled_unset g :
  channel_active INIT FILE g = true →
  str_unset (ksr_tls_keylog_file g) = false →
  ksr_tls_keylog_file_lock g = None →
  (∀ i, file_init false i g = (-2, g, [ev_lock_alloc false])) ∧
  file_init true false g
    = (-3, set_file_lock g (Some (mk_lock false false)),
       [ev_lock_alloc true; ev_lock_init false]) ∧
  file_init true true g
    = (0, set_file_lock g (Some (mk_lock true false)),
       [ev_lock_alloc true; ev_lock_init true]).
Proof.
  unfold channel_active, ksr_tls_keylog_file_init.
  intros Hact Hfile Hlock.
  destruct (ksr_tls_keylog_mode g) as [m|]; [|done].
  rewrite Hact, Hfile, Hlock. simpl.
  rewrite (set_file_lock_same g None Hlock). done.
Qed.

Lemma file_init_set g a i :
  lock_implies_enabled g →
  is_Some (ksr_tls_keylog_file_lock g) →
  file_init a i g = (0, g, []).
Proof.
  intros Hinv Hset. destruct (Hinv Hset) as [Hact Hfile].
  unfold channel_active in Hact. unfold ksr_tls_keylog_file_init.
  destruct (ksr_tls_keylog_mode g) as [m|]; [|done].
  rewrite Hact, Hfile. simpl. by destruct Hset as [l ->].
Qed.

(** What one call does to the variables and how often it calls [lock_init]. *)
Lemma file_init_step g a i :
  lock_implies_enabled g →
  ∃ r g' ev,
    file_init a i g = (r, g', ev) ∧
    lock_implies_enabled g' ∧
    (is_Some (ksr_tls_keylog_file_lock g) → r = 0 ∧ ev = [] ∧ g' = g) ∧
    (ksr_tls_keylog_file_lock g = None →
       (length (List.filter is_lock_init ev)
        ≤ match ksr_tls_keylog_file_lock g' with Some _ => 1 | None => 0 end)%nat).
Proof.
  intros Hinv. destruct (ksr_tls_keylog_file_lock g) as [l|] eqn:Hlock.
  - exists 0, g, []. rewrite file_init_set; [|done|by rewrite Hlock].
    split; [done|]. split; [done|]. split; [done|]. intros [=].
  - destruct (channel_active INIT FILE g) eqn:Hact;
      [destruct (str_unset (ksr_tls_keylog_file g)) eqn:Hfile|].
    + exists (-1), g, []. unfold channel_active in Hact.
      unfold ksr_tls_keylog_file_init.
      destruct (ksr_tls_keylog_mode g) as [m|]; [|done].
      rewrite Hact, Hfile. simpl. split; [done|]. split; [done|].
      split; [intros [? [=]]|]. intros _. rewrite Hlock. simpl. lia.
    + destruct (file_init_enabled_unset g Hact Hfile Hlock) as (H2 & H3 & H0).
      destruct a; [destruct i|].
      * eexists _, _, _. split; [exact H0|].
        split; [intros _; by destruct g|]. split; [intros [? [=]]|].
        intros _. simpl. lia.
      * eexists _, _, _. split; [exact H3|].
        split; [intros _; by destruct g|]. split; [intros [? [=]]|].
        intros _. simpl. lia.
      * eexists _, _, _. split; [exact (H2 i)|].
        split; [done|]. split; [intros [? [=]]|].
        intros _. rewrite Hlock. simpl. lia.
    + exists 0, g, []. unfold channel_active in Hact.
      unfold ksr_tls_keylog_file_init.
      destruct (ksr_tls_keylog_mode g) as [m|]; [rewrite Hact|]; simpl;
        (split; [done|]; split; [done|]; split; [intros [? [=]]|];
         intros _; rewrite Hlock; simpl; lia).
Qed.

Lemma lock_inits_cons c tr :
  lock_inits (c :: tr)
  = (length (List.filter is_lock_init c.1.2) + lock_inits tr)%nat.
Proof.
  unfold lock_inits. simpl. by rewrite List.filter_app, length_app.
Qed.

Lemma file_init_run_spec answers : ∀ g,
  lock_implies_enabled g →
  (∀ g0 r ev g1, (g0, r, ev, g1) ∈ init_run answers g →
     is_Some (ksr_tls_keylog_file_lock g0) → r = 0 ∧ ev = [] ∧ g1 = g0) ∧
  (lock_inits (init_run answers g)
   ≤ match ksr_tls_keylog_file_lock g with Some _ => 0 | None => 1 end)%nat.
Proof.
  induction answers as [|[a i] rest IH]; intros g Hinv.
  - simpl. split; [|unfold lock_inits; simpl; destruct (ksr_tls_keylog_file_lock g); lia].
    intros g0 r ev g1 Hin. by apply elem_of_nil in Hin.
  - destruct (file_init_step g a i Hinv) as (r & g' & ev & Hcall & Hinv' & Hset & Hunset).
    simpl. rewrite Hcall. destruct (IH g' Hinv') as [IH1 IH2]. split.
    + intros g0 r0 ev0 g1 Hin. apply elem_of_cons in Hin as [[= -> -> -> ->]|Hin].
      * exact Hset.
      * by apply IH1.
    + rewrite lock_inits_cons. cbn [fst snd].
      destruct (ksr_tls_keylog_file_lock g) as [l|] eqn:Hlock.
      * destruct Hset as (_ & -> & ->); [done|]. rewrite Hlock in IH2. simpl. lia.
      * specialize (Hunset eq_refl).
        destruct (ksr_tls_keylog_file_lock g'); lia.
Qed.

End FileInit.

(** C7.  From process start (no lock yet), in any run of calls of
    [ksr_tls_keylog_file_init] with any answers of [lock_alloc] and
    [lock_init]: [lock_init] is called at most once in the whole run, and a
    call made when the lock is already set returns 0, calls nothing and
    leaves the variables alone.  With the file channel active and the path
    set, a failed [lock_alloc] gives -2 and a failed [lock_init] gives -3,
    two different values (and success gives 0). *)
Theorem file_init_once (INIT FILE : Z) (g : globals) (answers : list (bool * bool)) :
  ksr_tls_keylog_file_lock g = None →
  (lock_inits (file_init_run INIT FILE answers g) ≤ 1)%nat ∧
  (∀ g0 r ev g1, (g0, r, ev, g1) ∈ file_init_run INIT FILE answers g →
     is_Some (ksr_tls_keylog_file_lock g0) → r = 0 ∧ ev = [] ∧ g1 = g0) ∧
  (channel_active INIT FILE g = true →
   str_unset (ksr_tls_keylog_file g) = false →
     (∀ i, ksr_tls_keylog_file_init INIT FILE false i g
           = (-2, g, [ev_lock_alloc false])) ∧
     ksr_tls_keylog_file_init INIT FILE true false g
       = (-3, set_file_lock g (Some (mk_lock false false)),
          [ev_lock_alloc true; ev_lock_init false]) ∧
     ksr_tls_keylog_file_init INIT FILE true true g
       = (0, set_file_lock g (Some (mk_lock true false)),
          [ev_lock_alloc true; ev_lock_init true]) ∧
     (∀ i, (ksr_tls_keylog_file_init INIT FILE false i g).1.1
           ≠ (ksr_tls_keylog_file_init INIT FILE true false g).1.1)).
Proof.
  intros Hlock.
  assert (Hinv : Keylog.lock_implies_enabled INIT FILE g).
  { intros [l Hl]. congruence. }
  destruct (file_init_run_spec INIT FILE answers g Hinv) as [H1 H2].
  rewrite Hlock in H2. split; [done|]. split; [done|].
  intros Hact Hfile.
  destruct (file_init_enabled_unset INIT FILE g Hact Hfile Hlock) as (E2 & E3 & E0).
  split; [done|]. split; [done|]. split; [done|].
  intros i. rewrite E2, E3. done.
Qed.

(** Three calls: the allocation fails, then everything works, then the lock
    is found in place. *)
Example file_init_three_calls :
  map (λ c, (c.1.1.2, c.1.2))
      (file_init_run 1 4 [(false, true); (true, true); (true, true)] globals_at_start)
  = [(-2, [ev_lock_alloc false]);
     (0, [ev_lock_alloc true; ev_lock_init true]);
     (0, [])].
Proof. reflexivity. Qed.

Lemma file_init_once_witness :
  (lock_inits (file_init_run 1 4 [(false, true); (true, true); (true, true)]
                 globals_at_start) ≤ 1)%nat ∧
  (∀ g0 r ev g1,
     (g0, r, ev, g1) ∈ file_init_run 1 4 [(false, true); (true, true); (true, true)]
                          globals_at_start →
     is_Some (ksr_tls_keylog_file_lock g0) → r = 0 ∧ ev = [] ∧ g1 = g0) ∧
  (∀ i, ksr_tls_keylog_file_init 1 4 false i globals_at_start
        = (-2, globals_at_start, [ev_lock_alloc false])) ∧
  ksr_tls_keylog_file_init 1 4 true false globals_at_start
    = (-3, set_file_lock globals_at_start (Some (mk_lock false false)),
       [ev_lock_alloc true; ev_lock_init false]) ∧
  ksr_tls_keylog_file_init 1 4 true true globals_at_start
    = (0, globals_file_ready, [ev_lock_alloc true; ev_lock_init true]).
Proof.
  destruct (file_init_once 1 4 globals_at_start
              [(false, true); (true, true); (true, true)] eq_refl)
    as (H1 & H2 & H3).
  destruct (H3 eq_refl eq_refl) as (E2 & E3 & E0 & _).
  split; [exact H1|]. split; [exact H2|]. split; [exact E2|]. split; [exact E3|exact E0].
Defined.

(** *** The peer sink *)

(** C8.  [ksr_tls_keylog_peer_init] returns 0 and does nothing unless the
    mode is set and has both the INIT and the PEER bit.  When it has:
    an unset or empty address gives -1; an address that [parse_phostport]
    rejects gives -2; a protocol other than [PROTO_UDP] gives -3; an address
    that [sip_hostport2su] does not resolve gives -4; otherwise the resolved
    address is stored and the result is 0.  The four error values are
    pairwise different. *)
Theorem peer_init_codes (INIT PEER PROTO_UDP : Z) (env : resolver) (g : globals) :
  (channel_active INIT PEER g = false →
     ksr_tls_keylog_peer_init INIT PEER PROTO_UDP env g = (0, g, [])) ∧
  (channel_active INIT PEER g = true →
     (str_unset (ksr_tls_keylog_peer g) = true →
        ksr_tls_keylog_peer_init INIT PEER PROTO_UDP env g = (-1, g, [])) ∧
     (∀ s, str_unset (ksr_tls_keylog_peer g) = false →
        str_s (ksr_tls_keylog_peer g) = Some s →
        (parse_phostport env (c_str s) = None →
           (ksr_tls_keylog_peer_init INIT PEER PROTO_UDP env g).1.1 = -2) ∧
        (∀ host port pr,
           parse_phostport env (c_str s) = Some (host, port, pr) →
           (pr ≠ PROTO_UDP →
              (ksr_tls_keylog_peer_init INIT PEER PROTO_UDP env g).1.1 = -3) ∧
           (pr = PROTO_UDP → sip_hostport2su env host port pr = None →
              (ksr_tls_keylog_peer_init INIT PEER PROTO_UDP env g).1.1 = -4) ∧
           (∀ su pr', pr = PROTO_UDP →
              sip_hostport2su env host port pr = Some (su, pr') →
              ∃ ev,
                ksr_tls_keylog_peer_init INIT PEER PROTO_UDP env g
                = (0, set_peer_dst g
                        (mk_dest (send_sock (init_dest_info env (ksr_tls_keylog_peer_dst g)))
                                 su pr'), ev))))) ∧
  NoDup [-1; -2; -3; -4].
Proof.
  split; [|split].
  - unfold channel_active, ksr_tls_keylog_peer_init.
    destruct (ksr_tls_keylog_mode g) as [m|]; [|done]. by intros ->.
  - unfold channel_active, ksr_tls_keylog_peer_init, str_unset.
    destruct (ksr_tls_keylog_mode g) as [m|]; [|done]. intros ->. simpl. split.
    + destruct (str_s (ksr_tls_keylog_peer g)); [by intros ->|done].
    + intros s Hlen Hs. rewrite Hs in Hlen |- *. rewrite Hlen. split.
      * by intros ->.
      * intros host port pr ->. split; [|split].
        -- intros Hne. apply Z.eqb_neq in Hne. by rewrite Hne.
        -- intros -> ->. by rewrite Z.eqb_refl.
        -- intros su pr' -> ->. rewrite Z.eqb_refl. simpl. eauto.
  - repeat (apply NoDup_cons_2; [rewrite ?elem_of_cons, elem_of_nil; lia|]).
    apply NoDup_nil_2.
Qed.

(** The four failures, on the sample resolver: no address, an address the
    parser rejects, a protocol that is not UDP, a host that does not resolve. *)
Example peer_init_failures :
  (ksr_tls_keylog_peer_init 1 8 1 sample_resolver
     (mk_globals (Some 9) (mk_str None 0) (mk_str (Some (lit "")) 0) None
        (mk_dest None (mk_su 0 0) 0))).1.1 = -1 ∧
  (ksr_tls_keylog_peer_init 1 8 1 sample_resolver
     (mk_globals (Some 9) (mk_str None 0) (mk_str (Some (lit "nonsense")) 8) None
        (mk_dest None (mk_su 0 0) 0))).1.1 = -2 ∧
  (ksr_tls_keylog_peer_init 1 8 2 sample_resolver globals_at_start).1.1 = -3 ∧
  (ksr_tls_keylog_peer_init 1 8 1
     (mk_resolver (init_dest_info sample_resolver) (parse_phostport sample_resolver)
        (λ _ _ _, None))
     globals_at_start).1.1 = -4.
Proof. repeat split; reflexivity. Qed.

Lemma peer_init_codes_witness :
  ∃ ev,
    ksr_tls_keylog_peer_init 1 8 1 sample_resolver globals_at_start
    = (0, set_peer_dst globals_at_start (mk_dest None (mk_su 2130706433 9999) 1), ev).
Proof.
  destruct (peer_init_codes 1 8 1 sample_resolver globals_at_start) as (_ & H & _).
  destruct (H eq_refl) as (_ & Hset).
  destruct (Hset (lit "udp:127.0.0.1:9999") eq_refl eq_refl) as (_ & Hparsed).
  destruct (Hparsed (lit "127.0.0.1") 9999 1 eq_refl) as (_ & _ & Hok).
  exact (Hok (mk_su 2130706433 9999) 1 eq_refl eq_refl).
Defined.

(** [ksr_tls_keylog_peer_send] on an active peer channel, case by case. *)
Lemma peer_send_active (INIT PEER PROTO_UDP : Z) (env : network)
    (line : list ascii) (g : globals) :
  channel_active INIT PEER g = true →
  ksr_tls_keylog_peer_send INIT PEER PROTO_UDP env line g
  = let d := ksr_tls_keylog_peer_dst g in
    match send_sock d with
    | Some _ =>
      let rc := udp_send env d (c_str line) in
      (if rc <? 0 then -1 else 0, g,
       ev_udp_send d (c_str line) rc :: if rc <? 0 then [ev_log] else [])
    | None =>
      match get_send_socket env (to d) PROTO_UDP with
      | None =>
        (-2, set_peer_dst g (mk_dest None (to d) (proto d)),
         [ev_get_send_socket (to d) PROTO_UDP false; ev_log])
      | Some sk =>
        let d1 := mk_dest (Some sk) (to d) (proto d) in
        let rc := udp_send env d1 (c_str line) in
        (if rc <? 0 then -1 else 0, set_peer_dst g d1,
         ev_get_send_socket (to d) PROTO_UDP true
           :: ev_udp_send d1 (c_str line) rc :: if rc <? 0 then [ev_log] else [])
      end
    end.
Proof.
  unfold channel_active, ksr_tls_keylog_peer_send.
  destruct (ksr_tls_keylog_mode g) as [m|]; [|done]. intros ->.
  cbn [negb]. rewrite c_str_take. cbv zeta.
  destruct (send_sock (ksr_tls_keylog_peer_dst g)) as [sk|] eqn:Hsk.
  - rewrite Hsk. rewrite (set_peer_dst_same g _ eq_refl).
    by destruct (udp_send env (ksr_tls_keylog_peer_dst g) (c_str line) <? 0).
  - destruct (get_send_socket env (to (ksr_tls_keylog_peer_dst g)) PROTO_UDP) as [sk|].
    + cbn [send_sock]. by destruct (udp_send env _ (c_str line) <? 0).
    + done.
Qed.

(** C9.  [ksr_tls_keylog_peer_send] returns 0 and calls nothing while the
    peer channel is not active.  While it is: with no send socket yet it asks
    [get_send_socket] for one; if there is none it returns -2, sends nothing
    and leaves [send_sock] unset, so that the next call asks again; once
    there is one it is kept, and the line goes out in one [udp_send] whose
    payload is the bytes of the line, with result 0 (or -1 if [udp_send]
    reports an error). *)
Theorem peer_send_cases (INIT PEER PROTO_UDP : Z) (env : network)
    (line : list ascii) (g : globals) :
  (channel_active INIT PEER g = false →
     ksr_tls_keylog_peer_send INIT PEER PROTO_UDP env line g = (0, g, [])) ∧
  (channel_active INIT PEER g = true →
   ∀ r g' ev,
     ksr_tls_keylog_peer_send INIT PEER PROTO_UDP env line g = (r, g', ev) →
     let d := ksr_tls_keylog_peer_dst g in
     let d' := ksr_tls_keylog_peer_dst g' in
     (* the send socket is asked for only when there is none *)
     (send_sock d = None →
        List.filter is_get_send_socket ev
        = [ev_get_send_socket (to d) PROTO_UDP
             (bool_decide (is_Some (get_send_socket env (to d) PROTO_UDP)))] ∧
        send_sock d' = get_send_socket env (to d) PROTO_UDP) ∧
     (is_Some (send_sock d) → List.filter is_get_send_socket ev = [] ∧ g' = g) ∧
     (* no socket: error, nothing sent, still unset, asked again next time *)
     (send_sock d' = None →
        r = -2 ∧ datagrams ev = [] ∧
        ∀ env2 line2,
          List.filter is_get_send_socket
            (ksr_tls_keylog_peer_send INIT PEER PROTO_UDP env2 line2 g').2
          = [ev_get_send_socket (to d') PROTO_UDP
               (bool_decide (is_Some (get_send_socket env2 (to d') PROTO_UDP)))]) ∧
     (* a socket: one datagram, the bytes of the line *)
     (is_Some (send_sock d') →
        datagrams ev = [c_str line] ∧
        ev_udp_send d' (c_str line) (udp_send env d' (c_str line)) ∈ ev ∧
        r = (if udp_send env d' (c_str line) <? 0 then -1 else 0))).
Proof.
  split.
  - unfold channel_active, ksr_tls_keylog_peer_send.
    destruct (ksr_tls_keylog_mode g) as [m|]; [|done]. by intros ->.
  - intros Hact r g' ev. rewrite (peer_send_active _ _ _ _ _ _ Hact). cbv zeta.
    destruct (send_sock (ksr_tls_keylog_peer_dst g)) as [sk|] eqn:Hsk.
    + intros [= <- <- <-]. rewrite Hsk.
      split; [done|]. split.
      { intros _. split; [|done].
        by destruct (udp_send env (ksr_tls_keylog_peer_dst g) (c_str line) <? 0). }
      split; [done|]. intros _.
      split; [by destruct (udp_send env (ksr_tls_keylog_peer_dst g) (c_str line) <? 0)|].
      split; [left|done].
    + destruct (get_send_socket env (to (ksr_tls_keylog_peer_dst g)) PROTO_UDP)
        as [sk|] eqn:Hget.
      * intros [= <- <- <-]. cbn [ksr_tls_keylog_peer_dst set_peer_dst send_sock].
        set (d1 := mk_dest (Some sk) (to (ksr_tls_keylog_peer_dst g))
                     (proto (ksr_tls_keylog_peer_dst g))).
        split.
        { intros _. split; [|done].
          by destruct (udp_send env d1 (c_str line) <? 0). }
        split; [by intros [? [=]]|]. split; [done|]. intros _.
        split; [by destruct (udp_send env d1 (c_str line) <? 0)|].
        split; [right; left|done].
      * intros [= <- <- <-]. cbn [ksr_tls_keylog_peer_dst set_peer_dst send_sock to].
        split; [done|]. split; [by intros [? [=]]|]. split; [|by intros [? [=]]].
        intros _. split; [done|]. split; [done|]. intros env2 line2.
        assert (Hact' : channel_active INIT PEER
                  (set_peer_dst g (mk_dest None (to (ksr_tls_keylog_peer_dst g))
                                     (proto (ksr_tls_keylog_peer_dst g)))) = true)
          by exact Hact.
        rewrite (peer_send_active _ _ _ _ _ _ Hact').
        cbn [ksr_tls_keylog_peer_dst set_peer_dst send_sock to]. cbv zeta.
        destruct (get_send_socket env2 (to (ksr_tls_keylog_peer_dst g)) PROTO_UDP) as [sk2|].
        -- cbn [snd]. by destruct (udp_send env2 _ (c_str line2) <? 0).
        -- done.
Qed.

(** Without a socket the call fails and the handle stays unset; once the
    network has one, the next call gets it and sends. *)
Example peer_send_retry :
  ∃ g1 ev1 g2 ev2,
    ksr_tls_keylog_peer_send 1 8 1 no_network (lit "CLIENT_RANDOM abcd")
      globals_at_start = (-2, g1, ev1) ∧
    send_sock (ksr_tls_keylog_peer_dst g1) = None ∧
    datagrams ev1 = [] ∧
    ksr_tls_keylog_peer_send 1 8 1 sample_network (lit "CLIENT_RANDOM abcd") g1
      = (0, g2, ev2) ∧
    send_sock (ksr_tls_keylog_peer_dst g2) = Some 7%positive ∧
    datagrams ev2 = [lit "CLIENT_RANDOM abcd"].
Proof. eexists _, _, _, _. repeat split; reflexivity. Qed.

(** With the peer bit missing from the mode nothing is sent. *)
Example peer_send_inactive :
  ksr_tls_keylog_peer_send 1 8 1 sample_network (lit "CLIENT_RANDOM abcd")
    (mk_globals (Some 5) (ksr_tls_keylog_file globals_at_start)
       (ksr_tls_keylog_peer globals_at_start) None (mk_dest None (mk_su 0 0) 0))
  = (0,
     mk_globals (Some 5) (ksr_tls_keylog_file globals_at_start)
       (ksr_tls_keylog_peer globals_at_start) None (mk_dest None (mk_su 0 0) 0),
     []).
Proof. reflexivity. Qed.

Lemma peer_send_cases_witness :
  (ksr_tls_keylog_peer_send 1 8 1 sample_network (lit "CLIENT_RANDOM abcd")
     globals_at_start).1.1 = 0 ∧
  datagrams (ksr_tls_keylog_peer_send 1 8 1 sample_network (lit "CLIENT_RANDOM abcd")
               globals_at_start).2
  = [lit "CLIENT_RANDOM abcd"] ∧
  send_sock (ksr_tls_keylog_peer_dst
               (ksr_tls_keylog_peer_send 1 8 1 sample_network
                  (lit "CLIENT_RANDOM abcd") globals_at_start).1.2)
  = Some 7%positive.
Proof.
  destruct (peer_send_cases 1 8 1 sample_network (lit "CLIENT_RANDOM abcd")
              globals_at_start) as (_ & H).
  destruct (H eq_refl _ _ _ eq_refl) as (Hnone & _ & _ & Hsock).
  destruct (Hnone eq_refl) as (_ & Hs).
  destruct (Hsock (ex_intro _ 7%positive Hs)) as (Hd & _ & Hr).
  split; [exact Hr|]. split; [exact Hd|exact Hs].
Defined.

End KeylogTheory.

Module ShmTheory.
Import CString CStringTheory Shm.

Lemma strlen_nonneg v : 0 ≤ strlen v.
Proof. unfold strlen. lia. Qed.

Lemma c_str_repeat (c : ascii) n : c ≠ NUL → c_str (repeat c n) = repeat c n.
Proof.
  intros Hc. induction n as [|n IH]; [done|].
  change (repeat c (S n)) with (c :: repeat c n). cbn [c_str].
  destruct (Ascii.eqb_spec c NUL); [done|]. by rewrite IH.
Qed.

Lemma to_int_small z : - 2 ^ 31 ≤ z < 2 ^ 31 → to_int z = z.
Proof. intros Hz. unfold to_int. rewrite Z.mod_small; lia. Qed.

(** C10, as the code has it.  For [val = NULL] the cell is set to [NULL]
    and the result is 0.  For a string shorter than [INT_MAX] bytes: if
    [shm_malloc] of its length plus one fails, the result is -1 and the cell
    and the shared memory are as before; if it gives a block, the block
    holds the bytes of the string followed by the terminator, the cell points
    to it and the result is 0. *)
Theorem shm_asciiz_dup_spec (shm_malloc : Z → option positive)
    (dest : option positive) (shm : gmap positive (list ascii)) :
  shm_asciiz_dup shm_malloc dest None shm = Done (0, None, shm) ∧
  (∀ v, strlen v < INT_MAX →
     (shm_malloc (strlen v + 1) = None →
        shm_asciiz_dup shm_malloc dest (Some v) shm = Done (-1, dest, shm)) ∧
     (∀ ret, shm_malloc (strlen v + 1) = Some ret →
        shm_asciiz_dup shm_malloc dest (Some v) shm
        = Done (0, Some ret, <[ret := c_str v ++ [NUL]]> shm))).
Proof.
  split; [done|]. intros v Hlen. pose proof (strlen_nonneg v) as H0.
  unfold INT_MAX in Hlen. unfold shm_asciiz_dup.
  rewrite to_int_small by lia.
  assert (Hne : (strlen v =? INT_MAX) = false) by (apply Z.eqb_neq; unfold INT_MAX; lia).
  rewrite Hne. unfold to_size_t. rewrite Z.mod_small by lia. split.
  - by intros ->.
  - intros ret ->. rewrite Z.leb_refl. do 3 f_equal.
    apply take_ge. rewrite length_app. unfold strlen. simpl. lia.
Qed.

Lemma shm_asciiz_dup_spec_witness :
  shm_asciiz_dup (λ _, Some 5%positive) None (Some (lit "cert.pem")) ∅
  = Done (0, Some 5%positive, <[5%positive := lit "cert.pem" ++ [NUL]]> ∅).
Proof.
  destruct (shm_asciiz_dup_spec (λ _, Some 5%positive) None ∅) as (_ & H).
  destruct (H (lit "cert.pem") eq_refl) as (_ & Hok).
  exact (Hok 5%positive eq_refl).
Defined.

(** A string whose length is 2^32: its length as an [int] is 0, so one
    byte is requested and one byte is copied. *)
Lemma shm_asciiz_dup_wrapped (ret : positive) (dest : option positive)
    (v : list ascii) (shm : gmap positive (list ascii)) :
  strlen v = 2 ^ 32 →
  shm_asciiz_dup (λ _, Some ret) dest (Some v) shm
  = Done (0, Some ret, <[ret := take 1 (c_str v ++ [NUL])]> shm).
Proof.
  intros Hlen. unfold shm_asciiz_dup. rewrite Hlen. reflexivity.
Qed.

Lemma wrapped_copy_short (v : list ascii) :
  strlen v = 2 ^ 32 → take 1 (c_str v ++ [NUL]) ≠ c_str v ++ [NUL].
Proof.
  unfold strlen. intros Hlen Heq. apply (f_equal length) in Heq.
  rewrite length_take, length_app in Heq. cbn [length] in Heq. lia.
Qed.

Lemma strlen_four_gib_of_a : strlen four_gib_of_a = 2 ^ 32.
Proof.
  unfold strlen, four_gib_of_a. rewrite c_str_repeat by discriminate.
  rewrite repeat_length. apply Z2Nat.id. apply Z.pow_nonneg. lia.
Qed.

Lemma wrapped_not_copied (ret : positive) (dest : option positive)
    (v : list ascii) (shm : gmap positive (list ascii)) :
  strlen v = 2 ^ 32 →
  ¬ ∃ shm',
      shm_asciiz_dup (λ _, Some ret) dest (Some v) shm = Done (0, Some ret, shm') ∧
      shm' !! ret = Some (c_str v ++ [NUL]).
Proof.
  intros Hlen (shm' & Hrun & Hblock).
  rewrite (shm_asciiz_dup_wrapped _ _ _ _ Hlen) in Hrun.
  injection Hrun as <-. rewrite lookup_insert_eq in Hblock.
  injection Hblock as Hblock.
  exact (wrapped_copy_short _ Hlen Hblock).
Qed.

(** C10, as it is worded for every [val]: a string of 2^32 bytes has length
    0 once the length is stored in an [int]; one byte is requested and
    copied, and the result is 0 although the block holds neither the string
    nor a terminator. *)
Lemma shm_asciiz_dup_truncates : ¬ copies_every_string.
Proof.
  exact (λ H : copies_every_string,
           wrapped_not_copied 1%positive None four_gib_of_a ∅
             strlen_four_gib_of_a (H 1%positive None four_gib_of_a ∅)).
Qed.

End ShmTheory.

(** * Further properties *)

Module OpensslTheory.
Import Shm Openssl.

Lemma to_int_zero z : to_int z = 0 ↔ z mod 2 ^ 32 = 0.
Proof.
  unfold to_int. rewrite <- (Zplus_mod_idemp_l z).
  pose proof (Z.mod_pos_bound z (2 ^ 32) ltac:(lia)) as Hr.
  set (r := z mod 2 ^ 32) in *.
  destruct (Z_lt_ge_dec r (2 ^ 31)) as [Hlt|Hge].
  - rewrite Z.mod_small by lia. lia.
  - replace (r + 2 ^ 31) with ((r - 2 ^ 31) + 1 * 2 ^ 32) by lia.
    rewrite Z.mod_add by lia. rewrite Z.mod_small by lia. lia.
Qed.

Lemma clear_errors_run queue : ∀ fuel logged,
  (∀ e, e ∈ queue → e mod 2 ^ 32 ≠ 0) →
  tls_openssl_clear_errors fuel queue logged
  = if decide (length queue < fuel)%nat
    then Done ([], logged ++ map (λ e, to_ulong (to_int e)) queue)
    else OutOfFuel.
Proof.
  induction queue as [|e rest IH]; intros fuel logged Hq.
  - destruct fuel as [|fuel]; simpl; [done|]. by rewrite app_nil_r.
  - destruct fuel as [|fuel]; [done|]. cbn [tls_openssl_clear_errors ERR_get_error].
    assert (He : (to_int e =? 0) = false).
    { apply Z.eqb_neq. rewrite to_int_zero. apply Hq. left. }
    rewrite He, IH by (intros e' He'; apply Hq; by right).
    cbn [length map]. rewrite <- app_assoc. cbn [app].
    destruct (decide (length rest < fuel)%nat), (decide (S (length rest) < S fuel)%nat);
      try done; lia.
Qed.

(** X1.  With error codes as OpenSSL packs them (not zero in their low 32
    bits), [tls_openssl_clear_errors] fetches every leftover error and leaves
    the queue empty; it logs one line per error, in the order of the queue,
    and makes one call of [ERR_get_error] more than there were errors.  The
    code logged is the code fetched whenever that is below 2^31, and a second
    call right after finds nothing to log. *)
Theorem clear_errors_drains (queue logged : list Z) :
  (∀ e, e ∈ queue → e mod 2 ^ 32 ≠ 0) →
  (∀ fuel, (length queue < fuel)%nat →
     tls_openssl_clear_errors fuel queue logged
     = Done ([], logged ++ map (λ e, to_ulong (to_int e)) queue)) ∧
  (∀ fuel, (fuel ≤ length queue)%nat →
     tls_openssl_clear_errors fuel queue logged = OutOfFuel) ∧
  ((∀ e, e ∈ queue → 0 < e < 2 ^ 31) →
     map (λ e, to_ulong (to_int e)) queue = queue) ∧
  (∀ logged', tls_openssl_clear_errors 1 [] logged' = Done ([], logged')).
Proof.
  intros Hq. split; [|split; [|split]].
  - intros fuel Hfuel. rewrite clear_errors_run by done. by rewrite decide_True.
  - intros fuel Hfuel. rewrite clear_errors_run by done. rewrite decide_False; [done|lia].
  - intros Hsmall. clear Hq. induction queue as [|e rest IH]; [done|].
    cbn [map]. rewrite IH by (intros e' He'; apply Hsmall; by right).
    f_equal. assert (0 < e < 2 ^ 31) as He by (apply Hsmall; left).
    unfold to_int, to_ulong. rewrite (Z.mod_small (e + 2 ^ 31)) by lia.
    rewrite Z.mod_small; lia.
  - done.
Qed.

Lemma clear_errors_drains_witness :
  tls_openssl_clear_errors 3 [167772294; 337678594] []
  = Done ([], [167772294; 337678594]).
Proof.
  destruct (clear_errors_drains [167772294; 337678594] []) as (H & _).
  - intros e He. apply elem_of_cons in He as [->|He]; [done|].
    apply list_elem_of_singleton in He as ->. done.
  - exact (H 3%nat (le_n 3)).
Defined.

End OpensslTheory.

Module RegistryMore.
Import Registry RegistryTheory.

Lemma gc_loop_nothing_to_free l : ∀ fuel h prev cur freed,
  (length l ≤ fuel)%nat →
  is_chain h cur l →
  (∀ a, a ∈ l → referenced h a) →
  gc_loop fuel h prev cur freed = Done (h, freed).
Proof.
  induction l as [|c l IH]; intros fuel h prev cur freed Hfuel Hchain Href.
  - simpl in Hchain. subst cur. by destruct fuel.
  - destruct Hchain as (-> & cn & Hcn & Hchain).
    destruct fuel as [|fuel]; [simpl in Hfuel; lia|]. simpl in Hfuel.
    cbn [gc_loop]. unfold gc_iter. rewrite Hcn. unfold atomic_get.
    destruct (ref_count cn =? 0) eqn:Hz.
    + apply Z.eqb_eq in Hz. exfalso. apply (Href c); [left|]. by exists cn.
    + rewrite app_nil_r. apply IH; [lia|done|].
      intros a Ha. apply Href. by right.
Qed.

Lemma registry_eta (s : registry) :
  tls_domains_cfg_lock s = false →
  mk_registry (heap s) (tls_domains_cfg s) false = s.
Proof. intros <-. by destruct s. Qed.

(** X2.  When no retired generation has count zero (for one, when nothing is
    retired: the head alone), [collect_garbage] frees nothing and leaves the
    shared memory exactly as it was. *)
Theorem sweep_nothing_to_free (s : registry) (hd : addr) (l : list addr) (fuel : nat) :
  tls_domains_cfg_lock s = false →
  tls_domains_cfg s = Some hd →
  is_chain (heap s) (Some hd) (hd :: l) →
  (∀ a, a ∈ l → referenced (heap s) a) →
  (length l ≤ fuel)%nat →
  collect_garbage fuel s = Done (s, []).
Proof.
  intros Hlock Hhead (_ & hn & Hhn & Hchain) Href Hfuel.
  unfold collect_garbage. rewrite Hlock, Hhead, Hhn.
  rewrite (gc_loop_nothing_to_free l) by done.
  rewrite <- Hhead. by rewrite registry_eta.
Qed.

Lemma sweep_nothing_to_free_witness :
  collect_garbage 1 (reg two_generations) = Done (reg two_generations, []) ∧
  collect_garbage 0 (mk_registry {[ 1%positive := mk_cfg 10 None 0 ]} (Some 1%positive) false)
  = Done (mk_registry {[ 1%positive := mk_cfg 10 None 0 ]} (Some 1%positive) false, []).
Proof.
  split.
  - apply (sweep_nothing_to_free (reg two_generations) 2%positive [1%positive] 1);
      [reflexivity|reflexivity| |  |simpl; lia].
    + split; [reflexivity|]. eexists. split; [reflexivity|].
      split; [reflexivity|]. eexists. split; [reflexivity|]. reflexivity.
    + intros a Ha. apply list_elem_of_singleton in Ha as ->.
      intros (n & Hn & Hz). vm_compute in Hn. injection Hn as <-. discriminate.
  - apply (sweep_nothing_to_free _ 1%positive [] 0);
      [reflexivity|reflexivity| | |simpl; lia].
    + split; [reflexivity|]. eexists. split; [reflexivity|]. reflexivity.
    + intros a Ha. by apply elem_of_nil in Ha.
Defined.

(** X3.  A sweep run right after a sweep frees nothing and changes nothing:
    what the first call kept, the second keeps. *)
Theorem sweep_twice (s : registry) (hd : addr) (l : list addr) (fuel : nat) :
  tls_domains_cfg_lock s = false →
  tls_domains_cfg s = Some hd →
  is_chain (heap s) (Some hd) (hd :: l) →
  (length l ≤ fuel)%nat →
  ∃ s' freed,
    collect_garbage fuel s = Done (s', freed) ∧
    collect_garbage fuel s' = Done (s', []).
Proof.
  intros Hlock Hhead Hchain Hfuel.
  destruct (collect_garbage_spec s hd l fuel Hlock Hhead Hchain Hfuel)
    as (h' & Hgc & Hch & Hframe & Hpay & Hfree).
  eexists _, _. split; [exact Hgc|].
  apply (sweep_nothing_to_free _ hd (filter (referenced (heap s)) l)); try done.
  - intros a Ha. apply list_elem_of_filter in Ha as [Hr Hal].
    intros (n & Hn & Hz). apply Hr.
    assert (Hnf : a ∉ filter (unreferenced (heap s)) l).
    { intros Hin. apply list_elem_of_filter in Hin as [Hu _]. by apply Hr. }
    specialize (Hpay a Hnf). cbn [heap] in Hn. rewrite Hn in Hpay.
    destruct (heap s !! a) as [m|] eqn:Hm; [|done]. injection Hpay as _ Hrc.
    exists m. split; [done|]. congruence.
  - pose proof (length_filter (referenced (heap s)) l). lia.
Qed.

Lemma sweep_twice_witness :
  ∃ s' freed,
    collect_garbage 1 retired_unreferenced = Done (s', freed) ∧
    collect_garbage 1 s' = Done (s', []).
Proof.
  apply (sweep_twice retired_unreferenced 2%positive [1%positive] 1);
    [reflexivity|reflexivity|exact retired_unreferenced_chain|simpl; lia].
Defined.

(** X4.  What a sweep frees is taken from the retired part of the chain, each
    generation once, and is all that leaves the shared memory: the live
    addresses afterwards are the live addresses before without the freed
    ones, and their number has gone down by the number of generations
    freed. *)
Theorem sweep_accounting (s : registry) (hd : addr) (l : list addr) (fuel : nat) :
  tls_domains_cfg_lock s = false →
  tls_domains_cfg s = Some hd →
  is_chain (heap s) (Some hd) (hd :: l) →
  (length l ≤ fuel)%nat →
  ∃ s' freed,
    collect_garbage fuel s = Done (s', freed) ∧
    NoDup freed ∧
    (∀ a, a ∈ freed → a ∈ l) ∧
    dom (heap s') = dom (heap s) ∖ list_to_set freed ∧
    (size (heap s') + length freed = size (heap s))%nat.
Proof.
  intros Hlock Hhead Hchain Hfuel.
  destruct (collect_garbage_spec s hd l fuel Hlock Hhead Hchain Hfuel)
    as (h' & Hgc & Hch & Hframe & Hpay & Hfree).
  pose proof (is_chain_NoDup _ _ _ Hchain) as Hnd.
  apply NoDup_cons in Hnd as [_ Hnd].
  set (freed := filter (unreferenced (heap s)) l) in *.
  assert (Hndf : NoDup freed) by (by apply NoDup_filter).
  assert (Hdom : dom h' = dom (heap s) ∖ list_to_set freed).
  { apply set_eq. intros a. rewrite elem_of_difference, elem_of_list_to_set, !elem_of_dom.
    destruct (decide (a ∈ freed)) as [Hin|Hnin].
    - rewrite (Hfree a Hin). split; [by intros [? ?]|tauto].
    - specialize (Hpay a Hnin). split.
      + intros [n Hn]. rewrite Hn in Hpay.
        destruct (heap s !! a); [eauto|done].
      + intros [[n Hn] _]. rewrite Hn in Hpay.
        destruct (h' !! a); [eauto|done]. }
  eexists _, _. split; [exact Hgc|]. cbn [heap]. split; [done|]. split.
  { intros a Ha. by apply list_elem_of_filter in Ha as [_ ?]. }
  split; [done|].
  rewrite <- !size_dom, Hdom.
  assert (Hsub : list_to_set (C := gset addr) freed ⊆ dom (heap s)).
  { intros a Ha. apply elem_of_list_to_set, list_elem_of_filter in Ha as [(n & Hn & _) _].
    apply elem_of_dom. eauto. }
  pose proof (size_union_alt (list_to_set (C := gset addr) freed) (dom (heap s))) as Hsz.
  rewrite (size_list_to_set freed Hndf) in Hsz.
  assert (list_to_set (C := gset addr) freed ∪ dom (heap s) = dom (heap s)) as Heq
    by (by apply subseteq_union_1_L).
  rewrite Heq in Hsz. lia.
Qed.

Lemma sweep_accounting_witness :
  ∃ s' freed,
    collect_garbage 1 retired_unreferenced = Done (s', freed) ∧
    NoDup freed ∧
    (∀ a, a ∈ freed → a ∈ [1%positive]) ∧
    dom (heap s') = dom (heap retired_unreferenced) ∖ list_to_set freed ∧
    (size (heap s') + length freed = size (heap retired_unreferenced))%nat.
Proof.
  apply (sweep_accounting retired_unreferenced 2%positive [1%positive] 1);
    [reflexivity|reflexivity|exact retired_unreferenced_chain|simpl; lia].
Defined.

(** X5.  In a consistent server state a sweep reclaims exactly the retired
    generations that no connection refers to: of the generations on the
    chain, those live afterwards are the head and the ones to which some
    connection holds a reference. *)
Theorem sweep_reclaims_unreferenced (st : system) (hd : addr) (L : list addr) :
  consistent st →
  tls_domains_cfg (reg st) = Some hd →
  is_chain (heap (reg st)) (Some hd) L →
  ∃ st',
    step Sweep st = Done st' ∧
    refs st' = refs st ∧
    ∀ a, a ∈ L → (is_Some (heap (reg st') !! a) ↔ a = hd ∨ a ∈ refs st).
Proof.
  intros (Hlock & hd' & l & Hhead & Hchain & Hcnt & Href) Hhd HL.
  rewrite Hhead in Hhd. injection Hhd as ->.
  rewrite (is_chain_func _ _ _ _ HL Hchain). clear HL.
  assert (Hfuel : (length l ≤ size (heap (reg st)))%nat).
  { pose proof (is_chain_length _ _ _ Hchain) as Hlen. simpl in Hlen. lia. }
  destruct (collect_garbage_spec _ hd l _ Hlock Hhead Hchain Hfuel)
    as (h' & Hgc & Hch & Hframe & Hpay & Hfree).
  pose proof (is_chain_NoDup _ _ _ Hchain) as Hnd.
  apply NoDup_cons in Hnd as [Hhl _].
  cbn [step]. rewrite Hgc. eexists. split; [done|]. split; [done|].
  cbn [reg heap]. intros a Ha.
  destruct (is_chain_live _ _ _ _ Hchain Ha) as [n Hn].
  destruct (decide (a ∈ filter (unreferenced (heap (reg st))) l)) as [Hin|Hnin].
  - rewrite (Hfree a Hin). apply list_elem_of_filter in Hin as [(m & Hm & Hz) Hal].
    split; [by intros [? ?]|]. intros [->|Hr]; [done|].
    pose proof (held_elem a _ Hr) as Hpos.
    rewrite <- (Hcnt a m) in Hpos; [lia|by right|done].
  - specialize (Hpay a Hnin). rewrite Hn in Hpay. split.
    + intros _. apply elem_of_cons in Ha as [->|Hal]; [by left|right].
      destruct (decide (a ∈ refs st)) as [|Hnr]; [done|]. exfalso. apply Hnin.
      apply list_elem_of_filter. split; [|done]. exists n. split; [done|].
      rewrite (Hcnt a n); [by apply held_not_elem|by right|done].
    + intros _. destruct (h' !! a); [eauto|done].
Qed.

Lemma sweep_reclaims_unreferenced_witness :
  ∃ st',
    step Sweep two_generations = Done st' ∧
    refs st' = refs two_generations ∧
    ∀ a, a ∈ [2%positive; 1%positive] →
      (is_Some (heap (reg st') !! a) ↔ a = 2%positive ∨ a ∈ refs two_generations).
Proof.
  apply (sweep_reclaims_unreferenced two_generations 2%positive [2%positive; 1%positive]).
  - exact two_generations_consistent.
  - reflexivity.
  - split; [reflexivity|]. eexists. split; [reflexivity|].
    split; [reflexivity|]. eexists. split; [reflexivity|]. reflexivity.
Defined.

End RegistryMore.

Module KeylogMore.
Import CString CStringTheory Keylog KeylogTheory KeylogUse.

(** *** The line filter *)

Lemma byte_of_N z : 0 ≤ z < 256 → byte (ascii_of_N (Z.to_N z)) = z.
Proof.
  intros Hz. unfold byte. rewrite N_ascii_embedding by lia. lia.
Qed.

Lemma c_str_map (f : ascii → ascii) s :
  (∀ c, byte (f c) = 0 ↔ byte c = 0) → c_str (map f s) = map f (c_str s).
Proof.
  intros Hf. induction s as [|c r IH]; [done|]. cbn [map c_str].
  rewrite !eqb_NUL.
  destruct (Z.eqb_spec (byte c) 0) as [E|E], (Z.eqb_spec (byte (f c)) 0) as [E'|E'].
  - done.
  - exfalso. apply E'. by apply Hf.
  - exfalso. apply E. by apply Hf.
  - cbn [map]. by rewrite IH.
Qed.

Lemma lowered_map (f : ascii → ascii) s :
  (∀ c, byte (f c) = 0 ↔ byte c = 0) →
  (∀ c, tolower (byte (f c)) = tolower (byte c)) →
  lowered (map f s) = lowered s.
Proof.
  intros Hz Hl. unfold lowered. rewrite c_str_map by done.
  rewrite map_map. apply map_ext. intros c. apply Hl.
Qed.

Lemma lowered_strupr s : lowered (strupr s) = lowered s.
Proof.
  apply lowered_map; intros c; pose proof (byte_range c) as Hb;
    (rewrite byte_of_N; [|unfold toupper; destruct (_ && _) eqn:E; lia]);
    unfold toupper, tolower;
    destruct (97 <=? byte c) eqn:E1, (byte c <=? 122) eqn:E2; simpl;
    repeat match goal with
           | |- context [?a <=? ?b] => destruct (Z.leb_spec a b); simpl
           end; lia.
Qed.

Lemma lowered_strlwr s : lowered (strlwr s) = lowered s.
Proof.
  apply lowered_map; intros c; pose proof (byte_range c) as Hb;
    (rewrite byte_of_N; [|unfold tolower; destruct (_ && _) eqn:E; lia]);
    unfold tolower;
    destruct (65 <=? byte c) eqn:E1, (byte c <=? 90) eqn:E2; simpl;
    repeat match goal with
           | |- context [?a <=? ?b] => destruct (Z.leb_spec a b); simpl
           end; lia.
Qed.

Lemma vfilter_match_lowered l1 l2 :
  lowered l1 = lowered l2 →
  ksr_tls_keylog_vfilter_match l1 = ksr_tls_keylog_vfilter_match l2.
Proof.
  intros Heq. unfold ksr_tls_keylog_vfilter_match.
  pose proof (vfilter_loop_spec ksr_tls_keylog_vfilters l1) as H1.
  pose proof (vfilter_loop_spec ksr_tls_keylog_vfilters l2) as H2.
  rewrite Heq in H1. rewrite <- H2 in H1.
  destruct (vfilter_loop_bit ksr_tls_keylog_vfilters l1) as [E1|E1],
           (vfilter_loop_bit ksr_tls_keylog_vfilters l2) as [E2|E2];
    rewrite E1, E2 in *; try done.
  - destruct H1 as [_ H1]. by specialize (H1 eq_refl).
  - destruct H1 as [H1 _]. by specialize (H1 eq_refl).
Qed.

(** X6.  The answer of [ksr_tls_keylog_vfilter_match] does not depend on the
    case of the letters of the line: the line, the line in upper case and
    the line in lower case get the same answer, as do any two lines that are
    equal ignoring case. *)
Theorem vfilter_match_ignores_case (line : list ascii) :
  ksr_tls_keylog_vfilter_match (strupr line) = ksr_tls_keylog_vfilter_match line ∧
  ksr_tls_keylog_vfilter_match (strlwr line) = ksr_tls_keylog_vfilter_match line ∧
  (∀ line', lowered line' = lowered line →
     ksr_tls_keylog_vfilter_match line' = ksr_tls_keylog_vfilter_match line).
Proof.
  split; [|split].
  - apply vfilter_match_lowered, lowered_strupr.
  - apply vfilter_match_lowered, lowered_strlwr.
  - intros line'. apply vfilter_match_lowered.
Qed.

Lemma lowered_app f c rest :
  c_str f = f → c ≠ NUL →
  lowered (f ++ c :: rest) = lowered f ++ tolower (byte c) :: lowered rest.
Proof.
  intros Hf Hc. unfold lowered.
  assert (Hcs : c_str (f ++ c :: rest) = f ++ c :: c_str rest).
  { revert Hf. induction f as [|x f IH]; cbn [c_str app].
    - intros _. by destruct (Ascii.eqb_spec c NUL).
    - destruct (Ascii.eqb x NUL); [done|]. intros [= Hf]. by rewrite IH. }
  rewrite Hcs, Hf, map_app. done.
Qed.

Lemma extends_app (a : list Z) x xs : extends a (a ++ x :: xs) = true.
Proof.
  unfold extends. apply andb_true_intro. split.
  - apply Nat.ltb_lt. rewrite length_app. simpl. lia.
  - apply bool_decide_eq_true. by rewrite take_app_length.
Qed.

(** X7.  An entry of the filter table followed by anything is turned down:
    a line as OpenSSL writes it, the label, a space and then the values, gets
    the answer 0 for each of the six labels. *)
Theorem vfilter_match_rejects_longer (f : list ascii) (c : ascii) (rest : list ascii) :
  f ∈ ksr_tls_keylog_vfilters → c ≠ NUL →
  ksr_tls_keylog_vfilter_match (f ++ c :: rest) = 0.
Proof.
  intros Hf Hc. unfold ksr_tls_keylog_vfilter_match.
  destruct (vfilter_loop_bit ksr_tls_keylog_vfilters (f ++ c :: rest)) as [E|E]; [done|].
  exfalso. apply vfilter_loop_spec in E as (f' & Hf' & Heq).
  assert (Hnul : c_str f = f).
  { unfold ksr_tls_keylog_vfilters in Hf.
    repeat (apply elem_of_cons in Hf as [->|Hf]; [reflexivity|]).
    by apply elem_of_nil in Hf. }
  rewrite lowered_app in Heq by done.
  assert (Hcheck : no_entry_extends_another = true) by (vm_compute; reflexivity).
  unfold no_entry_extends_another in Hcheck.
  rewrite forallb_forall in Hcheck.
  specialize (Hcheck f (proj1 (list_elem_of_In _ _) Hf)).
  rewrite forallb_forall in Hcheck.
  specialize (Hcheck f' (proj1 (list_elem_of_In _ _) Hf')).
  rewrite Heq, extends_app in Hcheck. discriminate.
Qed.

Lemma vfilter_match_rejects_longer_witness :
  ksr_tls_keylog_vfilter_match (lit "CLIENT_RANDOM " ++ "0"%char :: lit "102 aabb") = 0.
Proof.
  apply (vfilter_match_rejects_longer (lit "CLIENT_RANDOM ") "0"%char (lit "102 aabb")).
  - left.
  - discriminate.
Defined.

End KeylogMore.

Module SinkTheory.
Import CString CStringTheory Keylog KeylogTheory KeylogUse.

(** *** The file sink *)






(** X10.  When [lock_init] fails, the pointer to the lock stays set.  Every
    later [ksr_tls_keylog_file_init] then returns 0 without calling
    [lock_alloc] or [lock_init], and [ksr_tls_keylog_file_write] does not
    take its early exit: it goes on to [lock_get] on a lock that was never
    set up. *)
Theorem file_init_failed_lock_init (INIT FILE : Z) (g : globals) :
  ksr_tls_keylog_file_lock g = None →
  channel_active INIT FILE g = true →
  str_unset (ksr_tls_keylog_file g) = false →
  ∃ g1 ev,
    ksr_tls_keylog_file_init INIT FILE true false g = (-3, g1, ev) ∧
    ksr_tls_keylog_file_lock g1 = Some (mk_lock false false) ∧
    (∀ a i, ksr_tls_keylog_file_init INIT FILE a i g1 = (0, g1, [])) ∧
    (∀ ok line fs, ksr_tls_keylog_file_write ok line g1 fs = Fault).
Proof.
  intros Hlock Hact Hset.
  destruct (file_init_enabled_unset INIT FILE g Hact Hset Hlock) as (_ & H3 & _).
  eexists _, _. split; [exact H3|]. split; [done|]. split.
  - intros a i. apply file_init_set; [|by eexists]. intros _. done.
  - intros ok line fs. reflexivity.
Qed.

Lemma file_init_failed_lock_init_witness :
  ∃ g1 ev,
    ksr_tls_keylog_file_init 1 4 true false globals_at_start = (-3, g1, ev) ∧
    ksr_tls_keylog_file_lock g1 = Some (mk_lock false false) ∧
    (∀ a i, ksr_tls_keylog_file_init 1 4 a i g1 = (0, g1, [])) ∧
    (∀ ok line fs, ksr_tls_keylog_file_write ok line g1 fs = Fault).
Proof.
  apply (file_init_failed_lock_init 1 4 globals_at_start); reflexivity.
Defined.

(** X11.  [ksr_tls_keylog_file_init] is gated by the mode and the path
    before it looks at the lock: with the file channel not active it returns
    0, and with the channel active and the path unset or empty it returns -1,
    in both cases without a call out and without a change, whatever the lock
    and whatever [lock_alloc] and [lock_init] would answer.  -1 is returned
    in no other case, and apart from the lock no variable is ever changed. *)
Theorem file_init_gate (INIT FILE : Z) (a i : bool) (g : globals) :
  (channel_active INIT FILE g = false →
     ksr_tls_keylog_file_init INIT FILE a i g = (0, g, [])) ∧
  (channel_active INIT FILE g = true →
   str_unset (ksr_tls_keylog_file g) = true →
     ksr_tls_keylog_file_init INIT FILE a i g = (-1, g, [])) ∧
  ((ksr_tls_keylog_file_init INIT FILE a i g).1.1 = -1 →
     channel_active INIT FILE g = true ∧
     str_unset (ksr_tls_keylog_file g) = true) ∧
  (∃ l, (ksr_tls_keylog_file_init INIT FILE a i g).1.2 = set_file_lock g l) ∧
  (ksr_tls_keylog_file_init INIT FILE a i g).1.1 ∈ [0; -1; -2; -3].
Proof.
  unfold channel_active, ksr_tls_keylog_file_init.
  destruct (ksr_tls_keylog_mode g) as [m|] eqn:Hmode; cbn [fst snd].
  2:{ split; [done|]. split; [done|]. split; [done|]. split.
      - exists (ksr_tls_keylog_file_lock g). by rewrite set_file_lock_same.
      - left. }
  destruct (mode_has INIT m FILE); cbn [negb].
  2:{ split; [done|]. split; [done|]. split; [done|]. split.
      - exists (ksr_tls_keylog_file_lock g). by rewrite set_file_lock_same.
      - left. }
  destruct (str_unset (ksr_tls_keylog_file g)).
  { split; [done|]. split; [done|]. split; [done|]. split.
    - exists (ksr_tls_keylog_file_lock g). by rewrite set_file_lock_same.
    - right. left. }
  split; [done|]. split; [done|].
  destruct (ksr_tls_keylog_file_lock g) as [l|] eqn:Hlock; cbn [fst snd].
  { split; [done|]. split.
    - exists (Some l). by rewrite set_file_lock_same.
    - left. }
  destruct a; [destruct i|]; cbn [fst snd];
    (split; [done|]); (split; [eauto|]).
  - left.
  - do 3 right. left.
  - do 2 right. left.
Qed.

End SinkTheory.

Module PeerTheory.
Import CString CStringTheory Keylog KeylogTheory KeylogUse.

Section Peer.
Variables INIT PEER PROTO_UDP : Z.

#[local] Abbreviation peer_send := (ksr_tls_keylog_peer_send INIT PEER PROTO_UDP).
#[local] Abbreviation send_run := (peer_send_run INIT PEER PROTO_UDP).

(** Everything one call on an active channel does, in terms of the socket
    [sock] it ends up with. *)
Lemma peer_send_shape (env : network) (line : list ascii) (g : globals) :
  channel_active INIT PEER g = true →
  let d := ksr_tls_keylog_peer_dst g in
  ∃ r sock ev,
    peer_send env line g = (r, set_peer_dst g (mk_dest sock (to d) (proto d)), ev) ∧
    (is_Some (send_sock d) → sock = send_sock d) ∧
    (send_sock d = None → sock = get_send_socket env (to d) PROTO_UDP) ∧
    datagrams ev = match sock with Some _ => [c_str line] | None => [] end ∧
    destinations ev = match sock with Some _ => [(to d, proto d)] | None => [] end ∧
    socket_requests ev
    = match send_sock d with Some _ => [] | None => [(to d, PROTO_UDP)] end ∧
    List.filter got_send_socket ev
    = match send_sock d, sock with
      | None, Some _ => [ev_get_send_socket (to d) PROTO_UDP true]
      | _, _ => []
      end ∧
    ((r =? -2) = match sock with Some _ => false | None => true end).
Proof.
  intros Hact d. rewrite (peer_send_active _ _ _ _ _ _ Hact). fold d. cbv zeta.
  destruct (send_sock d) as [k|] eqn:Hk.
  - eexists _, (Some k), _. split.
    { f_equal. f_equal. rewrite <- Hk. symmetry. apply set_peer_dst_same.
      unfold d. by destruct (ksr_tls_keylog_peer_dst g). }
    split; [done|]. split; [done|].
    destruct (udp_send env d (c_str line) <? 0); repeat split; reflexivity.
  - destruct (get_send_socket env (to d) PROTO_UDP) as [k|] eqn:Hget.
    + eexists _, (Some k), _. split; [reflexivity|].
      split; [by intros [? [=]]|]. split; [done|].
      cbn [to proto].
      destruct (udp_send env _ (c_str line) <? 0); repeat split; reflexivity.
    + eexists _, None, _. split; [reflexivity|].
      split; [by intros [? [=]]|]. split; [done|]. repeat split; reflexivity.
Qed.

Lemma calls_out_cons c tr : calls_out (c :: tr) = c.2 ++ calls_out tr.
Proof. reflexivity. Qed.

Lemma datagrams_app ev1 ev2 : datagrams (ev1 ++ ev2) = datagrams ev1 ++ datagrams ev2.
Proof.
  induction ev1 as [|e ev1 IH]; [done|]. destruct e; cbn [app datagrams]; by rewrite ?IH.
Qed.

Lemma destinations_app ev1 ev2 :
  destinations (ev1 ++ ev2) = destinations ev1 ++ destinations ev2.
Proof.
  induction ev1 as [|e ev1 IH]; [done|]. destruct e; cbn [app destinations]; by rewrite ?IH.
Qed.

Lemma socket_requests_app ev1 ev2 :
  socket_requests (ev1 ++ ev2) = socket_requests ev1 ++ socket_requests ev2.
Proof.
  induction ev1 as [|e ev1 IH]; [done|].
  destruct e; cbn [app socket_requests]; by rewrite ?IH.
Qed.

(** A series of calls on an active channel. *)
Lemma peer_send_run_shape calls : ∀ g,
  channel_active INIT PEER g = true →
  let d := ksr_tls_keylog_peer_dst g in
  let tr := (send_run calls g).1 in
  let g' := (send_run calls g).2 in
  datagrams (calls_out tr) = lines_sent tr ∧
  (∀ x, x ∈ destinations (calls_out tr) → x = (to d, proto d)) ∧
  (∀ x, x ∈ socket_requests (calls_out tr) → x = (to d, PROTO_UDP)) ∧
  (length (List.filter got_send_socket (calls_out tr))
   ≤ match send_sock d with Some _ => 0 | None => 1 end)%nat ∧
  (is_Some (send_sock d) → socket_requests (calls_out tr) = [] ∧ g' = g) ∧
  (∃ sock, g' = set_peer_dst g (mk_dest sock (to d) (proto d))).
Proof.
  induction calls as [|[env line] rest IH]; intros g Hact d.
  - cbn. split; [done|]. split; [by intros x Hx; apply elem_of_nil in Hx|].
    split; [by intros x Hx; apply elem_of_nil in Hx|].
    split; [destruct (send_sock d); lia|]. split; [done|].
    exists (send_sock d). symmetry. apply set_peer_dst_same.
    unfold d. by destruct (ksr_tls_keylog_peer_dst g).
  - destruct (peer_send_shape env line g Hact)
      as (r & sock & ev & Hcall & Hkeep & Hnew & Hdg & Hdst & Hreq & Hgot & Hr).
    fold d in Hcall, Hkeep, Hnew, Hdst, Hreq, Hgot.
    set (g1 := set_peer_dst g (mk_dest sock (to d) (proto d))) in *.
    assert (Hact1 : channel_active INIT PEER g1 = true) by exact Hact.
    destruct (IH g1 Hact1) as (IHdg & IHdst & IHreq & IHgot & IHsome & sock' & IHg).
    cbn [ksr_tls_keylog_peer_dst g1 set_peer_dst to proto send_sock] in IHdst, IHreq, IHgot, IHsome, IHg.
    cbn [peer_send_run]. rewrite Hcall.
    destruct (send_run rest g1) as [tr g2] eqn:Hrest. cbn [fst snd] in *.
    rewrite calls_out_cons. cbn [snd].
    rewrite datagrams_app, destinations_app, socket_requests_app,
      List.filter_app, length_app.
    split; [|split; [|split; [|split; [|split]]]].
    + rewrite IHdg, Hdg. unfold lines_sent at 2. cbn [map concat fst snd].
      rewrite Hr. by destruct sock.
    + intros x Hx. apply elem_of_app in Hx as [Hx|Hx]; [|by apply IHdst].
      rewrite Hdst in Hx. destruct sock; [|by apply elem_of_nil in Hx].
      by apply list_elem_of_singleton in Hx.
    + intros x Hx. apply elem_of_app in Hx as [Hx|Hx]; [|by apply IHreq].
      rewrite Hreq in Hx. destruct (send_sock d); [by apply elem_of_nil in Hx|].
      by apply list_elem_of_singleton in Hx.
    + rewrite Hgot. destruct (send_sock d) as [k|] eqn:Hk.
      * rewrite (Hkeep ltac:(eauto)) in IHgot. simpl in *. lia.
      * destruct sock; simpl in *; lia.
    + intros Hsome. pose proof (Hkeep Hsome) as Hsock. subst sock.
      destruct (IHsome Hsome) as [Hr2 Hg2]. rewrite Hreq, Hr2, Hg2.
      destruct Hsome as [k Hk]. rewrite Hk. split; [done|].
      unfold g1. apply set_peer_dst_same.
      unfold d. by destruct (ksr_tls_keylog_peer_dst g).
    + exists sock'. rewrite IHg. unfold g1. by destruct g.
Qed.

End Peer.

(** X12.  Over any series of calls of [ksr_tls_keylog_peer_send] on an
    active channel, each with the network as it is at that moment: the
    datagrams handed to [udp_send] are the lines of the calls that had a
    socket (those that did not return -2), one per call and in order; all go
    to the address and protocol stored in the destination, which never
    change; [get_send_socket] is only ever asked about that address with
    [PROTO_UDP], gives a socket at most once in the series, and is not asked
    at all when the series starts with a socket. *)
Theorem peer_send_series (INIT PEER PROTO_UDP : Z)
    (calls : list (network * list ascii)) (g : globals) :
  channel_active INIT PEER g = true →
  let d := ksr_tls_keylog_peer_dst g in
  let tr := (peer_send_run INIT PEER PROTO_UDP calls g).1 in
  let g' := (peer_send_run INIT PEER PROTO_UDP calls g).2 in
  datagrams (calls_out tr) = lines_sent tr ∧
  (∀ x, x ∈ destinations (calls_out tr) → x = (to d, proto d)) ∧
  (∀ x, x ∈ socket_requests (calls_out tr) → x = (to d, PROTO_UDP)) ∧
  (length (List.filter got_send_socket (calls_out tr)) ≤ 1)%nat ∧
  (is_Some (send_sock d) → socket_requests (calls_out tr) = [] ∧ g' = g) ∧
  to (ksr_tls_keylog_peer_dst g') = to d ∧
  proto (ksr_tls_keylog_peer_dst g') = proto d.
Proof.
  intros Hact d tr g'.
  destruct (peer_send_run_shape INIT PEER PROTO_UDP calls g Hact)
    as (Hdg & Hdst & Hreq & Hgot & Hsome & sock & Hg).
  fold d tr g' in Hdg, Hdst, Hreq, Hgot, Hsome, Hg.
  split; [done|]. split; [done|]. split; [done|]. split.
  { destruct (send_sock d); lia. }
  split; [done|]. rewrite Hg. done.
Qed.

Lemma peer_send_series_witness :
  let tr := (peer_send_run 1 8 1
               [(no_network, lit "first"); (sample_network, lit "second");
                (no_network, lit "third")] globals_at_start).1 in
  datagrams (calls_out tr) = [lit "second"; lit "third"] ∧
  map (λ c : list ascii * Z * list event, c.1.2) tr = [-2; 0; -1] ∧
  (length (List.filter got_send_socket (calls_out tr)) ≤ 1)%nat.
Proof.
  destruct (peer_send_series 1 8 1
              [(no_network, lit "first"); (sample_network, lit "second");
               (no_network, lit "third")] globals_at_start eq_refl)
    as (Hdg & _ & _ & Hgot & _).
  split; [exact Hdg|]. split; [reflexivity|exact Hgot].
Defined.

(** X13.  Setting up and then sending: when the peer channel is active, the
    address is set, [parse_phostport] gives UDP and [sip_hostport2su]
    resolves the host, [ksr_tls_keylog_peer_init] returns 0, and in any
    series of calls of [ksr_tls_keylog_peer_send] after it every datagram is
    addressed to the resolved address with the protocol the resolver settled
    on, and every request for a send socket names that address. *)
Theorem peer_init_then_send (INIT PEER PROTO_UDP : Z) (env : resolver) (g : globals)
    (s host : list ascii) (port pr' : Z) (su : sockaddr_union)
    (calls : list (network * list ascii)) :
  channel_active INIT PEER g = true →
  str_s (ksr_tls_keylog_peer g) = Some s →
  0 < str_len (ksr_tls_keylog_peer g) →
  parse_phostport env (c_str s) = Some (host, port, PROTO_UDP) →
  sip_hostport2su env host port PROTO_UDP = Some (su, pr') →
  ∃ g1 ev,
    ksr_tls_keylog_peer_init INIT PEER PROTO_UDP env g = (0, g1, ev) ∧
    let tr := (peer_send_run INIT PEER PROTO_UDP calls g1).1 in
    datagrams (calls_out tr) = lines_sent tr ∧
    (∀ x, x ∈ destinations (calls_out tr) → x = (su, pr')) ∧
    (∀ x, x ∈ socket_requests (calls_out tr) → x = (su, PROTO_UDP)).
Proof.
  intros Hact Hs Hlen Hparse Hres.
  assert (Hinit : ∃ sock,
    ksr_tls_keylog_peer_init INIT PEER PROTO_UDP env g
    = (0, set_peer_dst g (mk_dest sock su pr'),
       [ev_init_dest_info; ev_parse_phostport (c_str s) true;
        ev_sip_hostport2su host port true])).
  { unfold channel_active in Hact. unfold ksr_tls_keylog_peer_init.
    destruct (ksr_tls_keylog_mode g) as [m|]; [|done].
    rewrite Hact, Hs. cbn [negb].
    assert ((str_len (ksr_tls_keylog_peer g) <=? 0) = false) as -> by (apply Z.leb_gt; lia).
    rewrite Hparse, Z.eqb_refl. cbn [negb]. rewrite Hres. eauto. }
  destruct Hinit as (sock & Hinit).
  eexists _, _. split; [exact Hinit|].
  assert (Hact1 : channel_active INIT PEER (set_peer_dst g (mk_dest sock su pr')) = true)
    by exact Hact.
  destruct (peer_send_run_shape INIT PEER PROTO_UDP calls _ Hact1)
    as (Hdg & Hdst & Hreq & _).
  split; [exact Hdg|]. split; [exact Hdst|exact Hreq].
Qed.

Lemma peer_init_then_send_witness :
  ∃ g1 ev,
    ksr_tls_keylog_peer_init 1 8 1 sample_resolver globals_at_start = (0, g1, ev) ∧
    let tr := (peer_send_run 1 8 1 [(sample_network, lit "CLIENT_RANDOM abcd")] g1).1 in
    datagrams (calls_out tr) = lines_sent tr ∧
    (∀ x, x ∈ destinations (calls_out tr) → x = (mk_su 2130706433 9999, 1)) ∧
    (∀ x, x ∈ socket_requests (calls_out tr) → x = (mk_su 2130706433 9999, 1)).
Proof.
  apply (peer_init_then_send 1 8 1 sample_resolver globals_at_start
           (lit "udp:127.0.0.1:9999") (lit "127.0.0.1") 9999 1
           (mk_su 2130706433 9999)); reflexivity.
Defined.



End PeerTheory.

Module ShmMore.
Import CString CStringTheory Shm ShmTheory.

Lemma c_str_terminated v rest : c_str (c_str v ++ NUL :: rest) = c_str v.
Proof.
  induction v as [|c r IH]; [done|]. cbn [c_str].
  destruct (Ascii.eqb c NUL) eqn:E; [done|].
  cbn [app c_str]. by rewrite E, IH.
Qed.

(** A string shorter than [INT_MAX] and a block from the allocator. *)
Lemma shm_asciiz_dup_ok shm_malloc dest v shm ret :
  strlen v < INT_MAX →
  shm_malloc (strlen v + 1) = Some ret →
  shm_asciiz_dup shm_malloc dest (Some v) shm
  = Done (0, Some ret, <[ret := c_str v ++ [NUL]]> shm).
Proof.
  intros Hlen Hm. pose proof (strlen_nonneg v) as H0.
  unfold INT_MAX in Hlen. unfold shm_asciiz_dup.
  rewrite to_int_small by lia.
  assert (Hne : (strlen v =? INT_MAX) = false) by (apply Z.eqb_neq; unfold INT_MAX; lia).
  rewrite Hne. unfold to_size_t. rewrite Z.mod_small by lia.
  rewrite Hm, Z.leb_refl. do 3 f_equal.
  apply take_ge. rewrite length_app. unfold strlen. simpl. lia.
Qed.

(** X15.  The copy made by [shm_asciiz_dup] reads back as the original: the
    new block is one byte longer than the string, ends the string with a
    terminator, and as a C string is equal to [val] and has its length; what
    follows the terminator of [val] in memory plays no part; every other
    block of shared memory is as before. *)
Theorem shm_asciiz_dup_reads_back (shm_malloc : Z → option positive)
    (dest : option positive) (v : list ascii) (shm : gmap positive (list ascii))
    (ret : positive) :
  strlen v < INT_MAX →
  shm_malloc (strlen v + 1) = Some ret →
  ∃ shm' block,
    shm_asciiz_dup shm_malloc dest (Some v) shm = Done (0, Some ret, shm') ∧
    shm' !! ret = Some block ∧
    c_str block = c_str v ∧
    strlen block = strlen v ∧
    Z.of_nat (length block) = strlen v + 1 ∧
    (∀ a, a ≠ ret → shm' !! a = shm !! a) ∧
    (∀ v', c_str v' = c_str v →
       shm_asciiz_dup shm_malloc dest (Some v') shm = Done (0, Some ret, shm')).
Proof.
  intros Hlen Hm. eexists _, _.
  split; [by apply shm_asciiz_dup_ok|].
  split; [apply lookup_insert_eq|].
  assert (Hc : c_str (c_str v ++ [NUL]) = c_str v) by apply c_str_terminated.
  split; [done|]. split; [unfold strlen; by rewrite Hc|].
  split; [rewrite length_app; unfold strlen; simpl; lia|].
  split; [intros a Ha; by rewrite lookup_insert_ne|].
  intros v' Hv'.
  assert (Hs : strlen v' = strlen v) by (unfold strlen; by rewrite Hv').
  rewrite <- Hv'. apply shm_asciiz_dup_ok; by rewrite Hs.
Qed.

Lemma shm_asciiz_dup_reads_back_witness :
  ∃ shm' block,
    shm_asciiz_dup (λ _, Some 5%positive) None (Some (lit "cert.pem")) ∅
    = Done (0, Some 5%positive, shm') ∧
    shm' !! 5%positive = Some block ∧
    c_str block = lit "cert.pem" ∧
    shm_asciiz_dup (λ _, Some 5%positive) None
      (Some (lit "cert.pem" ++ NUL :: lit "left over")) ∅
    = Done (0, Some 5%positive, shm').
Proof.
  destruct (shm_asciiz_dup_reads_back (λ _, Some 5%positive) None (lit "cert.pem") ∅
              5%positive eq_refl eq_refl)
    as (shm' & block & Hrun & Hblock & Hc & _ & _ & _ & Hsame).
  exists shm', block. split; [exact Hrun|]. split; [exact Hblock|].
  split; [exact Hc|]. apply Hsame. reflexivity.
Defined.

(** X16.  [shm_asciiz_dup] never gives memory back: every block allocated
    before the call is allocated after it, its return value is 0 or -1, and
    on -1 nothing has changed.  In particular the block that the cell
    pointed to before is still there, with its content, when the cell has
    been made to point elsewhere or to [NULL]. *)
Theorem shm_asciiz_dup_keeps_blocks (shm_malloc : Z → option positive)
    (dest : option positive) (val : option (list ascii))
    (shm : gmap positive (list ascii)) (r : Z) (dest' : option positive)
    (shm' : gmap positive (list ascii)) :
  shm_asciiz_dup shm_malloc dest val shm = Done (r, dest', shm') →
  dom shm ⊆ dom shm' ∧
  (r = 0 ∨ r = -1) ∧
  (r = -1 → dest' = dest ∧ shm' = shm) ∧
  (val = None → dest' = None ∧ shm' = shm ∧ r = 0) ∧
  (∀ old b, dest = Some old → shm !! old = Some b → dest' ≠ Some old →
     shm' !! old = Some b).
Proof.
  unfold shm_asciiz_dup. destruct val as [v|].
  2:{ intros [= <- <- <-]. split; [done|]. split; [by left|].
      split; [done|]. split; [done|]. done. }
  destruct (to_int (strlen v) =? INT_MAX); [done|]. cbv zeta.
  destruct (shm_malloc (to_size_t (to_int (strlen v) + 1))) as [ret|].
  2:{ intros [= <- <- <-]. split; [done|]. split; [by right|].
      split; [done|]. split; [done|]. done. }
  destruct (to_size_t (to_int (strlen v) + 1) <=? strlen v + 1); [|done].
  intros [= <- <- <-]. split.
  { rewrite dom_insert. apply union_subseteq_r. }
  split; [by left|]. split; [done|]. split; [done|].
  intros old b -> Hb Hne. rewrite lookup_insert_ne; [done|]. congruence.
Qed.

Lemma shm_asciiz_dup_keeps_blocks_witness :
  dom ({[ 3%positive := lit "old" ++ [NUL] ]} : gmap positive (list ascii))
    ⊆ dom (<[5%positive := lit "cert.pem" ++ [NUL]]>
             ({[ 3%positive := lit "old" ++ [NUL] ]} : gmap positive (list ascii))) ∧
  (<[5%positive := lit "cert.pem" ++ [NUL]]>
     ({[ 3%positive := lit "old" ++ [NUL] ]} : gmap positive (list ascii)))
    !! 3%positive = Some (lit "old" ++ [NUL]).
Proof.
  destruct (shm_asciiz_dup_keeps_blocks (λ _, Some 5%positive) (Some 3%positive)
              (Some (lit "cert.pem")) {[ 3%positive := lit "old" ++ [NUL] ]}
              0 (Some 5%positive)
              (<[5%positive := lit "cert.pem" ++ [NUL]]>
                 {[ 3%positive := lit "old" ++ [NUL] ]}) eq_refl)
    as (Hdom & _ & _ & _ & Hold).
  split; [exact Hdom|]. apply (Hold 3%positive); [reflexivity|reflexivity|discriminate].
Defined.

End ShmMore.
